(** * The Python backend of quicktype ([quicktype-core/language/Python.ts])

    A shallow embedding of the Python target language: the identifier
    classification used by the namers, the string-type mapping, the
    annotation renderer [pythonType], the declaration emitter, and the
    JSON deserializer synthesizer [deserializerFn] with its support code.

    The renderer objects are mutable in the source; here their fields are
    one explicit [RendererState] threaded through a state-and-panic monad. *)

From Stdlib Require Import ZArith String Ascii Sorted.
From stdpp Require Import base list gmap strings.

#[local] Set Warnings "-clear-no-such-hyp".

Local Open Scope Z_scope.

(** ** Small JavaScript helpers *)

(** [Array.prototype.indexOf]: position of the first occurrence, [-1] when
    there is none. *)
Fixpoint indexOf (x : string) (l : list string) : Z :=
  match l with
  | [] => -1
  | y :: l' =>
      if String.eqb y x then 0
      else let i := indexOf x l' in if i <? 0 then -1 else i + 1
  end.

(** ** Identifier characters *)

Module Identifier.

Definition startCategories : list string := ["Lu"; "Ll"; "Lt"; "Lm"; "Lo"; "Nl"].
Definition partCategories : list string := ["Mn"; "Mc"; "Nd"; "Pc"].

Section Classification.
(** [unicode.getCategory] of the [unicode-properties] package. *)
Variable getCategory : Z -> string.
(** The UTF-16 units of [String.fromCharCode(u).normalize("NFKC")]. *)
Variable normalizeNFKC : Z -> list Z.

Definition isNormalizedStartCharacter (utf16Unit : Z) : bool :=
  if utf16Unit =? 0x5f then true
  else 0 <=? indexOf (getCategory utf16Unit) startCategories.

(** The [for] loops of [isStartCharacter] and [isPartCharacter]: leave
    with [false] at the first unit that fails the test. *)
Fixpoint everyUnit (test : Z -> option bool) (s : list Z) : option bool :=
  match s with
  | [] => Some true
  | c :: s' =>
      match test c with
      | None => None
      | Some false => Some false
      | Some true => everyUnit test s'
      end
  end.

(** [isStartCharacter] and [isNormalizedPartCharacter] call each other;
    the fuel bounds the depth of that chain of calls, [None] is a chain
    cut short. *)
Fixpoint isStartCharacter (fuel : nat) (utf16Unit : Z) : option bool :=
  match fuel with
  | O => None
  | S fuel' =>
      match normalizeNFKC utf16Unit with
      | [] => Some false
      | c0 :: rest =>
          if negb (isNormalizedStartCharacter c0) then Some false
          else everyUnit (isNormalizedPartCharacter fuel') rest
      end
  end
with isNormalizedPartCharacter (fuel : nat) (utf16Unit : Z) : option bool :=
  match fuel with
  | O => None
  | S fuel' =>
      match isStartCharacter fuel' utf16Unit with
      | None => None
      | Some true => Some true
      | Some false =>
          Some (0 <=? indexOf (getCategory utf16Unit) partCategories)
      end
  end.

Definition isPartCharacter (fuel : nat) (utf16Unit : Z) : option bool :=
  everyUnit (isNormalizedPartCharacter fuel) (normalizeNFKC utf16Unit).

(** The two tests on a normalized unit, by general category. *)
Definition startTest (c : Z) : Prop :=
  c = 0x5f \/ getCategory c ∈ startCategories.
Definition continueTest (c : Z) : Prop :=
  startTest c \/ getCategory c ∈ partCategories.

Definition continueTestb (c : Z) : bool :=
  isNormalizedStartCharacter c
  || (0 <=? indexOf (getCategory c) partCategories).

End Classification.
End Identifier.

(** A few rows of the Unicode tables, to run the classification on: the
    ASCII letters and digits, the underscore, the combining acute accent,
    and four characters whose NFKC form is not themselves (superscript two,
    the fi ligature, the fullwidth low line, the square m/s sign). *)
Module IdentifierSample.

Definition getCategory (u : Z) : string :=
  if (65 <=? u) && (u <=? 90) then "Lu"
  else if (97 <=? u) && (u <=? 122) then "Ll"
  else if (48 <=? u) && (u <=? 57) then "Nd"
  else if u =? 0x5f then "Pc"
  else if u =? 0x301 then "Mn"
  else if u =? 0xb2 then "No"
  else if u =? 0x2215 then "Sm"
  else "Cn".

Definition normalizeNFKC (u : Z) : list Z :=
  if u =? 0xb2 then [0x32]
  else if u =? 0xfb01 then [0x66; 0x69]
  else if u =? 0xff3f then [0x5f]
  else if u =? 0x33a7 then [0x6d; 0x2215; 0x73]
  else [u].

End IdentifierSample.

Local Close Scope Z_scope.

(** ** The type graph *)

(** The double quote and the line feed, as one-character strings. *)
Definition dq : string := String "034"%char EmptyString.
Definition lf : string := String "010"%char EmptyString.

(** [Array.prototype.join]. *)
Fixpoint join (separator : string) (items : list string) : string :=
  match items with
  | [] => EmptyString
  | [x] => x
  | x :: rest => x +:+ separator +:+ join separator rest
  end.

(** A class or an enum is an object of the graph; [TypeRef] is its
    identity, on which the renderer's [Set<Type>] compares. *)
Definition TypeRef := positive.
Definition Name := string.

(** The variants [matchType] tells apart.  [t.kind] is a string in the
    source; the transformed-string kinds stay strings here. *)
#[local] Unset Elimination Schemes.
Inductive IRType : Type :=
| AnyType
| NullType
| BoolType
| IntegerType
| DoubleType
| StringType
| ArrayType (items : IRType)
| ClassType (ref : TypeRef)
| MapType (values : IRType)
| EnumType (ref : TypeRef)
| UnionType (members : list IRType)
| TransformedStringType (kind : string).
#[local] Set Elimination Schemes.

Definition kindOf (t : IRType) : string :=
  match t with
  | AnyType => "any"
  | NullType => "null"
  | BoolType => "bool"
  | IntegerType => "integer"
  | DoubleType => "double"
  | StringType => "string"
  | ArrayType _ => "array"
  | ClassType _ => "class"
  | MapType _ => "map"
  | EnumType _ => "enum"
  | UnionType _ => "union"
  | TransformedStringType kind => kind
  end.

Fixpoint typeSize (t : IRType) : nat :=
  match t with
  | ArrayType items => S (typeSize items)
  | MapType values => S (typeSize values)
  | UnionType members => S (list_sum (map typeSize members))
  | _ => 1%nat
  end.

Record ClassProperty := {
  cp_name : Name;
  cp_jsonName : string;
  cp_type : IRType
}.

Inductive DeclarationKind := forward | define.

Record Declaration := {
  decl_kind : DeclarationKind;
  decl_type : IRType
}.

(** What the renderer reads from the framework (spec, section 6): the
    resolved names, the properties and cases in their canonical order, the
    descriptions, the declaration order, the leading comments and the
    string escaper. *)
Record TypeGraph := {
  nameForNamedType : TypeRef -> Name;
  getProperties : TypeRef -> list ClassProperty;
  enumCases : TypeRef -> list (Name * string);
  descriptionForType : IRType -> option (list string);
  descriptionForClassProperty : TypeRef -> string -> option (list string);
  declarations : list Declaration;
  leadingComments : option (list string);
  stringEscape : string -> string
}.

(** Modelled from the spec: [followTargetType] (Transformers.ts) is not part
    of the source.  The IR of section 3 carries no transformation, so the
    target of a node is the node itself. *)
Definition followTargetType (t : IRType) : IRType := t.

Definition isNullType (t : IRType) : bool :=
  match t with NullType => true | _ => false end.

(** Modelled from the spec: [nullableFromUnion] (TypeUtils.ts) is not part of
    the source.  A union of exactly null and one other member [T] yields
    [T]; every other union yields nothing. *)
Definition nullableFromUnion (members : list IRType) : option IRType :=
  match filter (fun m => isNullType m = false) members with
  | [nonNull] => if existsb isNullType members then Some nonNull else None
  | _ => None
  end.

(** Modelled from the spec: [sortedMembers] (Type.ts) is not part of the
    source.  A stable sort of the members by kind, then name; kinds and
    names compare as strings, a member without a name has the empty one. *)
Definition memberName (G : TypeGraph) (t : IRType) : string :=
  match t with
  | ClassType ref | EnumType ref => nameForNamedType G ref
  | _ => EmptyString
  end.

Definition memberLeb (G : TypeGraph) (a b : IRType) : bool :=
  match String.compare (kindOf a) (kindOf b) with
  | Lt => true
  | Gt => false
  | Eq => String.leb (memberName G a) (memberName G b)
  end.

Fixpoint insertMember (G : TypeGraph) (m : IRType) (sorted : list IRType)
  : list IRType :=
  match sorted with
  | [] => [m]
  | m' :: rest =>
      if memberLeb G m m' then m :: sorted
      else m' :: insertMember G m rest
  end.

Definition sortedMembers (G : TypeGraph) (members : list IRType)
  : list IRType :=
  foldr (insertMember G) [] members.

(** [arrayIntercalate] of the [collection-utils] package. *)
Fixpoint arrayIntercalate {T : Type} (separator : T) (items : list T)
  : list T :=
  match items with
  | [] => []
  | [x] => [x]
  | x :: rest => x :: separator :: arrayIntercalate separator rest
  end.

(** ** PythonTargetLanguage *)



(** ** Source text *)

(** [Sourcelike]: a string, a resolved name, or an array of those. *)
#[local] Unset Elimination Schemes.
Inductive Sourcelike : Type :=
| SString (s : string)
| SName (name : Name)
| SArray (parts : list Sourcelike).
#[local] Set Elimination Schemes.

(** The text a [Sourcelike] serializes to. *)
Fixpoint flatten (s : Sourcelike) : string :=
  match s with
  | SString str => str
  | SName name => name
  | SArray parts => foldr (fun part rest => flatten part +:+ rest) EmptyString parts
  end.

Record MultiWord := {
  source : Sourcelike;
  needsParens : bool
}.

(** Modelled from the spec: [singleWord], [multiWord] and [parenIfNeeded]
    (Source.ts) are not part of the source.  A single word never needs
    parentheses; several words are joined by the separator and need them
    when nested. *)
Definition singleWord (parts : list Sourcelike) : MultiWord :=
  {| source := SArray parts; needsParens := false |}.

Definition multiWord (separator : Sourcelike) (words : list Sourcelike)
  : MultiWord :=
  match words with
  | [w] => singleWord [w]
  | _ => {| source := SArray (arrayIntercalate separator words);
            needsParens := true |}
  end.

Definition parenIfNeeded (w : MultiWord) : Sourcelike :=
  if needsParens w then SArray [SString "("; source w; SString ")"]
  else source w.

Inductive Line :=
| SourceLine (indent : nat) (lineParts : list Sourcelike)
| BlankLine.

Definition lineText (l : Line) : string :=
  match l with
  | SourceLine n lineParts =>
      join "" (replicate n "    ") +:+ flatten (SArray lineParts)
  | BlankLine => EmptyString
  end.

(** ** The renderer's state and effects *)

Inductive DeserializerFunction :=
| df_none | df_bool | df_int | df_float | df_str
| df_list | df_dict | df_union | df_date_time.

Global Instance DeserializerFunction_eq_dec : EqDecision DeserializerFunction.
Proof. solve_decision. Defined.

(** The string each member of the [DeserializerFunction] type is. *)
Definition dfName (df : DeserializerFunction) : string :=
  match df with
  | df_none => "none"
  | df_bool => "bool"
  | df_int => "int"
  | df_float => "float"
  | df_str => "str"
  | df_list => "list"
  | df_dict => "dict"
  | df_union => "union"
  | df_date_time => "date-time"
  end.

(** The fields of [PythonRenderer] and [JSONPythonRenderer], and the lines
    emitted so far.  A JavaScript [Map] or [Set] iterates in insertion
    order: [imports] and [deserializerFunctions], which are iterated, are
    lists in that order; [declaredTypes] is only asked for membership. *)
Record RendererState := {
  imports : list (string * list string);
  declaredTypes : gset TypeRef;
  deserializerFunctions : list DeserializerFunction;
  emitted : list Line;
  indentation : nat
}.

Definition initialState : RendererState :=
  {| imports := []; declaredTypes := ∅; deserializerFunctions := [];
     emitted := []; indentation := 0 |}.

Definition setImports (i : list (string * list string)) (st : RendererState)
  : RendererState :=
  {| imports := i; declaredTypes := declaredTypes st;
     deserializerFunctions := deserializerFunctions st;
     emitted := emitted st; indentation := indentation st |}.

Definition setDeclaredTypes (d : gset TypeRef) (st : RendererState)
  : RendererState :=
  {| imports := imports st; declaredTypes := d;
     deserializerFunctions := deserializerFunctions st;
     emitted := emitted st; indentation := indentation st |}.

Definition setDeserializerFunctions (s : list DeserializerFunction)
  (st : RendererState) : RendererState :=
  {| imports := imports st; declaredTypes := declaredTypes st;
     deserializerFunctions := s;
     emitted := emitted st; indentation := indentation st |}.

Definition setEmitted (lines : list Line) (st : RendererState)
  : RendererState :=
  {| imports := imports st; declaredTypes := declaredTypes st;
     deserializerFunctions := deserializerFunctions st;
     emitted := lines; indentation := indentation st |}.

Definition setIndentation (n : nat) (st : RendererState) : RendererState :=
  {| imports := imports st; declaredTypes := declaredTypes st;
     deserializerFunctions := deserializerFunctions st;
     emitted := emitted st; indentation := n |}.

(** A call returns a value and the state it leaves, or panics, or (for a
    definition run on fuel) runs out of fuel. *)
Inductive Result (A : Type) :=
| Ok (value : A) (st : RendererState)
| Panic (message : string)
| OutOfFuel.
Arguments Ok {A} value st.
Arguments Panic {A} message.
Arguments OutOfFuel {A}.

Definition M (A : Type) : Type := RendererState -> Result A.

Definition ret {A} (a : A) : M A := fun st => Ok a st.

Definition bind {A B} (c : M A) (k : A -> M B) : M B :=
  fun st =>
    match c st with
    | Ok a st' => k a st'
    | Panic message => Panic message
    | OutOfFuel => OutOfFuel
    end.

Definition panic {A} (message : string) : M A := fun _ => Panic message.

Declare Scope renderer_scope.
Delimit Scope renderer_scope with renderer.
Notation "x <- c ;; k" := (bind c (fun x => k))
  (at level 100, c at next level, right associativity) : renderer_scope.
Notation "c ;; k" := (bind c (fun _ => k))
  (at level 100, right associativity) : renderer_scope.
Local Open Scope renderer_scope.

(** [Array.prototype.map] and [forEach] with an effectful callback. *)
Definition mapM {A B} (f : A -> M B) : list A -> M (list B) :=
  fix go (l : list A) : M (list B) :=
    match l with
    | [] => ret []
    | x :: l' => y <- f x ;; ys <- go l' ;; ret (y :: ys)
    end.

Definition forEach {A} (f : A -> M unit) : list A -> M unit :=
  fix go (l : list A) : M unit :=
    match l with
    | [] => ret tt
    | x :: l' => f x ;; go l'
    end.

(** [Set.prototype.add]: a new element goes last, a present one stays. *)
Definition setAdd {A} `{EqDecision A} (x : A) (s : list A) : list A :=
  if decide (x ∈ s) then s else s ++ [x].

(** [mapUpdateInto] of [collection-utils]: replace the value under a key,
    a new key goes last. *)
Fixpoint mapUpdateInto {V} (m : list (string * V)) (k : string)
  (f : option V -> V) : list (string * V) :=
  match m with
  | [] => [(k, f None)]
  | (k', v) :: m' =>
      if String.eqb k' k then (k', f (Some v)) :: m'
      else (k', v) :: mapUpdateInto m' k f
  end.

Fixpoint mapGet {V} (m : list (string * V)) (k : string) : option V :=
  match m with
  | [] => None
  | (k', v) :: m' => if String.eqb k' k then Some v else mapGet m' k
  end.

Definition importInto (module name : string)
  (i : list (string * list string)) : list (string * list string) :=
  mapUpdateInto i module
    (fun s => match s with
              | Some s => setAdd name s
              | None => [name]
              end).

Definition withImport (module name : string) : M Sourcelike :=
  fun st =>
    Ok (SString name) (setImports (importInto module name (imports st)) st).

Definition withTyping (name : string) : M Sourcelike :=
  withImport "typing" name.

(** ** Emitting lines (Renderer.ts and ConvenienceRenderer.ts)

    Modelled from the spec: the line emitter of the framework is not part
    of the source.  The artifact is a sequence of indented lines and blank
    lines; a blank line is never doubled and never leads. *)

Definition emitLine (lineParts : list Sourcelike) : M unit :=
  fun st =>
    Ok tt (setEmitted (emitted st ++ [SourceLine (indentation st) lineParts]) st).

Definition ensureBlankLine : M unit :=
  fun st =>
    match last (emitted st) with
    | None | Some BlankLine => Ok tt st
    | Some (SourceLine _ _) => Ok tt (setEmitted (emitted st ++ [BlankLine]) st)
    end.

Definition indent (f : M unit) : M unit :=
  fun st =>
    match f (setIndentation (S (indentation st)) st) with
    | Ok _ st' => Ok tt (setIndentation (indentation st) st')
    | Panic message => Panic message
    | OutOfFuel => OutOfFuel
    end.

Definition gatherSource (emitter : M unit) : M (list Line) :=
  fun st =>
    match emitter (setEmitted [] st) with
    | Ok _ st' => Ok (emitted st') (setEmitted (emitted st) st')
    | Panic message => Panic message
    | OutOfFuel => OutOfFuel
    end.

Definition emitGatheredSource (lines : list Line) : M unit :=
  fun st => Ok tt (setEmitted (emitted st ++ lines) st).

Definition emitOptionalLine (line : option string) : M unit :=
  match line with
  | Some l => emitLine [SString l]
  | None => ret tt
  end.

Definition emitCommentLines (lines : list string) (lineStart : string)
  (beforeLine afterLine : option string) (firstLineStart : string) : M unit :=
  emitOptionalLine beforeLine ;;
  match lines with
  | [] => ret tt
  | first :: others =>
      emitLine [SString firstLineStart; SString first] ;;
      forEach (fun line => emitLine [SString lineStart; SString line]) others
  end ;;
  emitOptionalLine afterLine.

(** [String.prototype.split] on the line feed. *)
Fixpoint splitLines (current : string) (s : string) : list string :=
  match s with
  | EmptyString => [current]
  | String c s' =>
      if Ascii.eqb c "010"%char then current :: splitLines EmptyString s'
      else splitLines (current +:+ String c EmptyString) s'
  end.

Definition emitMultiline (linesString : string) : M unit :=
  forEach (fun line => emitLine [SString line]) (splitLines EmptyString linesString).

(** [forEachWithBlankLines] with the blank lines ["interposing"]: one is
    ensured before every item but the first. *)
Definition forEachInterposing {A} (f : A -> M unit) (l : list A) : M unit :=
  match l with
  | [] => ret tt
  | x :: l' => f x ;; forEach (fun y => ensureBlankLine ;; f y) l'
  end.

(** ** PythonRenderer *)

Definition commentLineStart : string := "# ".

Definition emitDescriptionBlock (lines : list string) : M unit :=
  match lines with
  | [line] => emitLine [SString (dq +:+ dq +:+ dq); SString line;
                        SString (dq +:+ dq +:+ dq)]
  | _ => emitCommentLines lines "" None (Some (dq +:+ dq +:+ dq))
           (dq +:+ dq +:+ dq)
  end.

Definition emitDescription (description : option (list string)) : M unit :=
  match description with
  | None => ret tt
  | Some lines => emitDescriptionBlock lines
  end.

Definition canBeForwardDeclared (t : IRType) : bool :=
  let kind := kindOf t in
  String.eqb kind "class" || String.eqb kind "enum".

Definition emitBlock (line : Sourcelike) (f : M unit) : M unit :=
  emitLine [line] ;; indent f.

Definition addDeclaredType (t : IRType) : M unit :=
  fun st =>
    match t with
    | ClassType ref | EnumType ref =>
        Ok tt (setDeclaredTypes ({[ref]} ∪ declaredTypes st) st)
    | _ => Ok tt st
    end.

Section Renderer.
Variable G : TypeGraph.

Definition namedType (t : TypeRef) : M Sourcelike :=
  fun st =>
    let name := nameForNamedType G t in
    if decide (t ∈ declaredTypes st) then Ok (SName name) st
    else Ok (SArray [SString "'"; SName name; SString "'"]) st.

(** [pythonType] recurses into the members a union hands out sorted, and
    into the one [nullableFromUnion] picks; the fuel counts the nesting
    depth still allowed. *)
Fixpoint pythonType_fuel (fuel : nat) (t : IRType) : M Sourcelike :=
  match fuel with
  | O => fun _ => OutOfFuel
  | S fuel' =>
      let actualType := followTargetType t in
      match actualType with
      | AnyType => withTyping "Any"
      | NullType => ret (SString "None")
      | BoolType => ret (SString "bool")
      | IntegerType => ret (SString "int")
      | DoubleType => ret (SString "float")
      | StringType => ret (SString "str")
      | ArrayType items =>
          list_ <- withTyping "List" ;;
          inner <- pythonType_fuel fuel' items ;;
          ret (SArray [list_; SString "["; inner; SString "]"])
      | ClassType classType => namedType classType
      | MapType values =>
          dict_ <- withTyping "Dict" ;;
          inner <- pythonType_fuel fuel' values ;;
          ret (SArray [dict_; SString "[str, "; inner; SString "]"])
      | EnumType enumType => namedType enumType
      | UnionType members =>
          match nullableFromUnion members with
          | Some maybeNullable =>
              optional_ <- withTyping "Optional" ;;
              inner <- pythonType_fuel fuel' maybeNullable ;;
              ret (SArray [optional_; SString "["; inner; SString "]"])
          | None =>
              memberTypes <- mapM (pythonType_fuel fuel') (sortedMembers G members) ;;
              union_ <- withTyping "Union" ;;
              ret (SArray [union_; SString "[";
                           SArray (arrayIntercalate (SString ", ") memberTypes);
                           SString "]"])
          end
      | TransformedStringType kind =>
          if String.eqb kind "date-time" then withImport "datetime" "datetime"
          else panic ("Transformed type " +:+ kind +:+ " not supported")
      end
  end.

Definition pythonType (t : IRType) : M Sourcelike :=
  pythonType_fuel (typeSize t) t.

Definition declarationLine (t : IRType) : M Sourcelike :=
  match t with
  | ClassType ref =>
      ret (SArray [SString "class "; SName (nameForNamedType G ref); SString ":"])
  | EnumType ref =>
      enum_ <- withImport "enum" "Enum" ;;
      ret (SArray [SString "class "; SName (nameForNamedType G ref);
                   SString "("; enum_; SString "):"])
  | _ => panic ("Can't declare type " +:+ kindOf t)
  end.

Definition declareType (t : IRType) (emitter : M unit) : M unit :=
  emitDescription (descriptionForType G t) ;;
  line <- declarationLine t ;;
  emitBlock line emitter ;;
  addDeclaredType t.

(** The methods [JSONPythonRenderer] overrides. *)
Record RendererClass := {
  emitClassMembers : TypeRef -> M unit;
  emitSupportCode : M unit
}.

Section Emitter.
Variable R : RendererClass.

Definition emitClass (t : TypeRef) : M unit :=
  declareType (ClassType t)
    (match getProperties G t with
     | [] => emitLine [SString "pass"]
     | properties =>
         forEach (fun cp =>
                    emitDescription
                      (descriptionForClassProperty G t (cp_jsonName cp)) ;;
                    annotation <- pythonType (cp_type cp) ;;
                    emitLine [SName (cp_name cp); SString ": "; annotation])
                 properties ;;
         ensureBlankLine ;;
         emitClassMembers R t
     end).

Definition emitEnum (t : TypeRef) : M unit :=
  declareType (EnumType t)
    (forEach (fun '(name, jsonName) =>
                emitLine [SArray [SName name; SString (" = " +:+ dq);
                                  SString (stringEscape G jsonName);
                                  SString dq]])
             (enumCases G t)).

Definition emitDeclaration (decl : Declaration) : M unit :=
  match decl_kind decl with
  | forward => ret tt
  | define =>
      match decl_type decl with
      | ClassType t => emitClass t
      | EnumType t => emitEnum t
      | UnionType _ => ret tt
      | t => panic ("Cannot declare type " +:+ kindOf t)
      end
  end.

Definition emitImports : M unit :=
  fun st =>
    forEach (fun '(module, names) =>
               emitLine [SString "from "; SString module; SString " import ";
                         SString (join ", " names)])
            (imports st) st.

Definition emitDefaultLeadingComments : M unit :=
  emitCommentLines
    ["Only Python >=3.6 right now, and no (de)serializers yet.";
     "More features coming soon!"]
    commentLineStart None None commentLineStart.

Definition emitSourceStructure : M unit :=
  declarationLines <-
    gatherSource (forEachInterposing emitDeclaration (declarations G)) ;;
  supportLines <- gatherSource (emitSupportCode R) ;;
  match leadingComments G with
  | Some comments =>
      emitCommentLines comments commentLineStart None None commentLineStart
  | None => emitDefaultLeadingComments
  end ;;
  ensureBlankLine ;;
  emitImports ;;
  ensureBlankLine ;;
  emitGatheredSource supportLines ;;
  ensureBlankLine ;;
  emitGatheredSource declarationLines.

End Emitter.

(** [PythonRenderer] itself: no members after the properties, no support
    code. *)
Definition PythonRenderer : RendererClass :=
  {| emitClassMembers := fun _ => ret tt; emitSupportCode := ret tt |}.

(** ** JSONPythonRenderer *)

Definition deserializerFunctionCodes (df : DeserializerFunction) : string :=
  match df with
  | df_none => join lf ["def from_none(x):";
                        "    assert x is None";
                        "    return x"]
  | df_bool => join lf ["def from_bool(x):";
                        "    assert isinstance(x, bool)";
                        "    return x"]
  | df_int => join lf ["def from_int(x):";
                       "    assert isinstance(x, int)";
                       "    return x"]
  | df_float => join lf ["def from_float(x):";
                         "    assert isinstance(x, (float, int))";
                         "    return float(x)"]
  | df_str => join lf ["def from_str(x):";
                       "    assert isinstance(x, str)";
                       "    return x"]
  | df_list => join lf ["def from_list(f, x):";
                        "    assert isinstance(x, list)";
                        "    return [f(y) for y in x]"]
  | df_dict => join lf ["def from_dict(f, x):";
                        "    assert isinstance(x, dict)";
                        "    return { k: f(v) for (k, v) in x.items() }"]
  | df_union => join lf ["def from_union(fs, x):";
                         "    for f in fs:";
                         "        try:";
                         "            return f(x)";
                         "        except AssertionError:";
                         "            pass";
                         "    assert False"]
  | df_date_time =>
      join lf ["def from_datetime(x):";
               "    # This is not correct.  Python <3.7 doesn't support ISO date-time";
               "    # parsing in the standard library.  This is a kludge until we have";
               "    # that.";
               "    return datetime.strptime(x, " +:+ dq
                 +:+ "%Y-%m-%dT%H:%M:%S.%fZ" +:+ dq +:+ ")"]
  end.

Definition from (df : DeserializerFunction) : M Sourcelike :=
  fun st =>
    Ok (SArray [SString "from_"; SString (dfName df)])
       (setDeserializerFunctions (setAdd df (deserializerFunctions st)) st).

Fixpoint deserializerFn (t : IRType) : M MultiWord :=
  match t with
  | AnyType =>
      ret (multiWord (SString " ") [SString "lambda"; SString "x:"; SString "x"])
  | NullType => f <- from df_none ;; ret (singleWord [f])
  | BoolType => f <- from df_bool ;; ret (singleWord [f])
  | IntegerType => f <- from df_int ;; ret (singleWord [f])
  | DoubleType => f <- from df_float ;; ret (singleWord [f])
  | StringType => f <- from df_str ;; ret (singleWord [f])
  | ArrayType items =>
      f <- from df_list ;;
      inner <- deserializerFn items ;;
      ret (multiWord (SString "")
             [SString "lambda x: "; f; SString "("; parenIfNeeded inner;
              SString ", x)"])
  | ClassType classType => ret (singleWord [SName (nameForNamedType G classType)])
  | MapType values =>
      f <- from df_dict ;;
      inner <- deserializerFn values ;;
      ret (multiWord (SString "")
             [SString "lambda x: "; f; SString "("; parenIfNeeded inner;
              SString ", x)"])
  | EnumType enumType => ret (singleWord [SName (nameForNamedType G enumType)])
  | UnionType members =>
      deserializers <-
        mapM (fun m => w <- deserializerFn m ;; ret (source w)) members ;;
      f <- from df_union ;;
      ret (multiWord (SString "")
             [SString "lambda x: "; f; SString "([";
              SArray (arrayIntercalate (SString ", ") deserializers);
              SString "], x)"])
  | TransformedStringType kind =>
      if String.eqb kind "date-time" then
        f <- from df_date_time ;; ret (singleWord [f])
      else panic ("Transformed type " +:+ kind +:+ " not supported")
  end.

Definition deserializer (value : Sourcelike) (t : IRType) : M Sourcelike :=
  w <- deserializerFn t ;;
  ret (SArray [parenIfNeeded w; SString "("; value; SString ")"]).

Definition JSON_emitClassMembers (t : TypeRef) : M unit :=
  emitBlock (SString "def __init__(self, obj):")
    (emitLine [SString "assert isinstance(obj, dict)"] ;;
     forEach (fun cp =>
                let property :=
                  SArray [SString ("obj[" +:+ dq);
                          SString (stringEscape G (cp_jsonName cp));
                          SString (dq +:+ "]")] in
                d <- deserializer property (cp_type cp) ;;
                emitLine [SString "self."; SName (cp_name cp); SString " = "; d])
             (getProperties G t)).

Definition JSON_emitSupportCode : M unit :=
  fun st =>
    forEach (fun df =>
               emitMultiline (deserializerFunctionCodes df) ;;
               ensureBlankLine)
            (deserializerFunctions st) st.

Definition JSONPythonRenderer : RendererClass :=
  {| emitClassMembers := JSON_emitClassMembers;
     emitSupportCode := JSON_emitSupportCode |}.

End Renderer.

(** The artifact [JSONPythonRenderer] produces for a graph, as lines. *)
Definition renderJSON (G : TypeGraph) : Result unit :=
  emitSourceStructure G (JSONPythonRenderer G) initialState.

Definition resultLines {A} (r : Result A) : list string :=
  match r with
  | Ok _ st => map lineText (emitted st)
  | _ => []
  end.

(** ** What the statements speak of *)

(** The transformed-string kinds other than date-time that occur in a
    type: the kinds this backend does not support. *)
Fixpoint unsupportedKinds (t : IRType) : list string :=
  match t with
  | ArrayType items => unsupportedKinds items
  | MapType values => unsupportedKinds values
  | UnionType members => flat_map unsupportedKinds members
  | TransformedStringType kind =>
      if String.eqb kind "date-time" then [] else [kind]
  | _ => []
  end.

Definition unsupportedMessage (kind : string) : string :=
  "Transformed type " +:+ kind +:+ " not supported".

(** Whether a date-time node occurs in a type. *)
Fixpoint hasDateTime (t : IRType) : bool :=
  match t with
  | ArrayType items => hasDateTime items
  | MapType values => hasDateTime values
  | UnionType members => existsb hasDateTime members
  | TransformedStringType kind => String.eqb kind "date-time"
  | _ => false
  end.

(** The combinators the deserializer of a type refers to, in the order
    [deserializerFn] calls [from] for them. *)
Fixpoint referencedCombinators (t : IRType) : list DeserializerFunction :=
  match t with
  | AnyType | ClassType _ | EnumType _ => []
  | NullType => [df_none]
  | BoolType => [df_bool]
  | IntegerType => [df_int]
  | DoubleType => [df_float]
  | StringType => [df_str]
  | ArrayType items => df_list :: referencedCombinators items
  | MapType values => df_dict :: referencedCombinators values
  | UnionType members => flat_map referencedCombinators members ++ [df_union]
  | TransformedStringType kind =>
      if String.eqb kind "date-time" then [df_date_time] else []
  end.

(** Adding the elements of a list to a set, one after the other. *)
Definition addAll {A} `{EqDecision A} (l : list A) (s : list A) : list A :=
  foldl (fun s x => setAdd x s) s l.

(** Whether a name is imported from a module. *)
Definition hasImport (module name : string) (st : RendererState) : Prop :=
  exists names, mapGet (imports st) module = Some names /\ name ∈ names.

(** A call on a type either returns, and then the type holds no unsupported
    kind, or panics with the message that names one of its unsupported
    kinds; it does not run out of fuel. *)
Definition outcomeNamesKind {A} (t : IRType) (r : Result A) : Prop :=
  match r with
  | Ok _ _ => unsupportedKinds t = []
  | Panic message =>
      exists kind, kind ∈ unsupportedKinds t /\ message = unsupportedMessage kind
  | OutOfFuel => False
  end.

(** The combinators the constructor of a class refers to, property after
    property, and those of a whole graph, declaration after declaration. *)
Definition classCombinators (G : TypeGraph) (c : TypeRef)
  : list DeserializerFunction :=
  flat_map (fun cp => referencedCombinators (cp_type cp)) (getProperties G c).

Definition declarationUses (U : TypeRef -> list DeserializerFunction)
  (decl : Declaration) : list DeserializerFunction :=
  match decl_kind decl with
  | forward => []
  | define =>
      match decl_type decl with
      | ClassType c => U c
      | _ => []
      end
  end.

Definition graphCombinators (G : TypeGraph) : list DeserializerFunction :=
  flat_map (declarationUses (classCombinators G)) (declarations G).

(** The types a declaration declares. *)
Definition declaredBy (decl : Declaration) : gset TypeRef :=
  match decl_kind decl with
  | forward => ∅
  | define =>
      match decl_type decl with
      | ClassType c | EnumType c => {[c]}
      | _ => ∅
      end
  end.

(** The lines of one combinator's body and the blank line after it, and
    the support code of a list of combinators. *)
Definition supportCodeLines (n : nat) (df : DeserializerFunction) : list Line :=
  map (fun l => SourceLine n [SString l])
      (splitLines EmptyString (deserializerFunctionCodes df))
  ++ [BlankLine].

Definition supportCode (n : nat) (dfs : list DeserializerFunction)
  : list Line :=
  flat_map (supportCodeLines n) dfs.

(** A forward reference: the name between quotes. *)
Definition quoted (name : Name) : Sourcelike :=
  SArray [SString "'"; SName name; SString "'"].

(** The head of the artifact: the leading comments and the imports, each
    followed by a blank line, as [emitSourceStructure] emits them. *)
Definition emitHeader (G : TypeGraph) : M unit :=
  match leadingComments G with
  | Some comments =>
      emitCommentLines comments commentLineStart None None commentLineStart
  | None => emitDefaultLeadingComments
  end ;;
  ensureBlankLine ;;
  emitImports ;;
  ensureBlankLine.

(** [String.prototype.includes]. *)
Fixpoint includes (searchString s : string) : bool :=
  String.prefix searchString s
  || match s with
     | EmptyString => false
     | String _ s' => includes searchString s'
     end.

(** The format the date-time combinator hands to [strptime]. *)
Definition dateTimeFormat : string := "%Y-%m-%dT%H:%M:%S.%fZ".

(** ** Sample graphs

    One class, named Node, declared alone, with the given properties. *)
Definition property (name : string) (t : IRType) : ClassProperty :=
  {| cp_name := name; cp_jsonName := name; cp_type := t |}.

Definition sampleGraph (properties : list ClassProperty) : TypeGraph :=
  {| nameForNamedType := fun _ => "Node";
     getProperties := fun _ => properties;
     enumCases := fun _ => [];
     descriptionForType := fun _ => None;
     descriptionForClassProperty := fun _ _ => None;
     declarations := [{| decl_kind := define; decl_type := ClassType 1%positive |}];
     leadingComments := None;
     stringEscape := fun s => s |}.

(** Two classes that refer to each other, A declared before B. *)
Definition mutualGraph : TypeGraph :=
  {| nameForNamedType := fun r => if decide (r = 1%positive) then "A" else "B";
     getProperties := fun r =>
       if decide (r = 1%positive) then [property "b" (ClassType 2%positive)]
       else [property "a" (ClassType 1%positive)];
     enumCases := fun _ => [];
     descriptionForType := fun _ => None;
     descriptionForClassProperty := fun _ _ => None;
     declarations := [{| decl_kind := define; decl_type := ClassType 1%positive |};
                      {| decl_kind := define; decl_type := ClassType 2%positive |}];
     leadingComments := Some [];
     stringEscape := fun s => s |}.

(** The first lines of the combinator bodies of an artifact, in order. *)
Definition definedCombinators (r : Result unit) : list string :=
  filter (fun l => String.prefix "def from_" l = true) (resultLines r).



(** An order of the combinator kinds fixed once for all artifacts: a rank
    that grows along the used set of every artifact. *)
Definition fixedSupportOrder (rank : DeserializerFunction -> nat) : Prop :=
  forall G st i j a b,
    renderJSON G = Ok tt st ->
    deserializerFunctions st !! i = Some a ->
    deserializerFunctions st !! j = Some b ->
    (i < j)%nat -> (rank a < rank b)%nat.

(** ** Triples and state changes *)

(** The types without a type inside. *)
Definition isLeaf (t : IRType) : Prop :=
  match t with
  | ArrayType _ | MapType _ | UnionType _ => False
  | _ => True
  end.

(** A triple: from a state that satisfies [P], a call that returns leaves a
    value and a state that satisfy [Q]. *)
Definition hoare {A} (P : RendererState -> Prop) (c : M A)
  (Q : A -> RendererState -> Prop) : Prop :=
  forall st a st', P st -> c st = Ok a st' -> Q a st'.

Definition preserves {A} (I : RendererState -> Prop) (c : M A) : Prop :=
  hoare I c (fun _ => I).

(** What an invariant has to stand for each kind of step to keep it. *)
Definition ImportClosed (I : RendererState -> Prop) (module : string) : Prop :=
  forall name st, I st -> I (setImports (importInto module name (imports st)) st).
Definition AppendClosed (I : RendererState -> Prop) : Prop :=
  forall lines st, I st -> I (setEmitted (emitted st ++ lines) st).

(** [evolves d u st st']: from [st] to [st'] the types of [d] were
    declared, the combinators of [u] were added in order, lines were
    appended and the indentation is back where it was; the imports are
    free. *)
Definition evolves (d : gset TypeRef) (u : list DeserializerFunction)
  (st st' : RendererState) : Prop :=
  declaredTypes st' = d ∪ declaredTypes st
  /\ deserializerFunctions st' = addAll u (deserializerFunctions st)
  /\ (exists lines, emitted st' = emitted st ++ lines)
  /\ indentation st' = indentation st.

Definition runs {A} (c : M A) (d : gset TypeRef)
  (u : list DeserializerFunction) : Prop :=
  forall st a st', c st = Ok a st' -> evolves d u st st'.

(** ** The import registry *)

(** What the renderer ever imports. *)
Definition allowedImport (module name : string) : Prop :=
  (module = "typing" /\ name ∈ ["Any"; "List"; "Dict"; "Optional"; "Union"])
  \/ (module = "enum" /\ name = "Enum")
  \/ (module = "datetime" /\ name = "datetime").

(** A registry that lists no module twice, no name twice under a module,
    no module without a name, and allowed imports only. *)
Definition importsWellFormed (i : list (string * list string)) : Prop :=
  NoDup i.*1
  /\ forall module names,
       (module, names) ∈ i ->
       names <> [] /\ NoDup names
       /\ forall name, name ∈ names -> allowedImport module name.

(** An invariant that reads the imports only. *)
Definition ImportsOnly (I : RendererState -> Prop) : Prop :=
  forall st st', imports st = imports st' -> I st -> I st'.

(** ** Two runs side by side *)

(** Two results that are the same but for their states, which [R]
    relates. *)
Definition sameResult {A} (R : RendererState -> RendererState -> Prop)
  (r1 r2 : Result A) : Prop :=
  match r1, r2 with
  | Ok a1 s1, Ok a2 s2 => a1 = a2 /\ R s1 s2
  | Panic m1, Panic m2 => m1 = m2
  | OutOfFuel, OutOfFuel => True
  | _, _ => False
  end.

(** A call that, from two states [R] relates, gives the same result. *)
Definition respects {A} (R : RendererState -> RendererState -> Prop)
  (c : M A) : Prop :=
  forall s1 s2, R s1 s2 -> sameResult R (c s1) (c s2).

(** Two states with the same declared types. *)
Definition sameDeclared (s1 s2 : RendererState) : Prop :=
  declaredTypes s1 = declaredTypes s2.

(** The value or the panic of a result, without its state. *)
Definition outcomeOf {A} (r : Result A) : option (A + string) :=
  match r with
  | Ok a _ => Some (inl a)
  | Panic message => Some (inr message)
  | OutOfFuel => None
  end.

(** ** When generation succeeds *)

(** A call that returns exactly when [C] holds, and otherwise panics with
    a message of [P]; it does not run out of fuel. *)
Definition decides {A} (c : M A) (C : Prop) (P : string -> Prop) : Prop :=
  forall st,
    match c st with
    | Ok _ _ => C
    | Panic message => ~ C /\ P message
    | OutOfFuel => False
    end.

(** A class all of whose properties have types this backend supports. *)
Definition supportedClass (G : TypeGraph) (c : TypeRef) : Prop :=
  forall cp, cp ∈ getProperties G c -> unsupportedKinds (cp_type cp) = [].

(** A declaration the emitter goes through: a forward declaration, or the
    definition of a supported class, of an enum or of a union. *)
Definition declarable (G : TypeGraph) (decl : Declaration) : Prop :=
  match decl_kind decl with
  | forward => True
  | define =>
      match decl_type decl with
      | ClassType c => supportedClass G c
      | EnumType _ | UnionType _ => True
      | _ => False
      end
  end.

(** The message a class that is not supported makes the emitter panic
    with, and the one a declaration does. *)
Definition classPanic (G : TypeGraph) (c : TypeRef) (message : string) : Prop :=
  exists cp kind,
    cp ∈ getProperties G c /\ kind ∈ unsupportedKinds (cp_type cp)
    /\ message = unsupportedMessage kind.

Definition declarationPanic (G : TypeGraph) (decl : Declaration)
  (message : string) : Prop :=
  decl_kind decl = define
  /\ match decl_type decl with
     | ClassType c => classPanic G c message
     | EnumType _ | UnionType _ => False
     | t => message = "Cannot declare type " +:+ kindOf t
     end.

(** The imports the annotation of a type asks for. *)
Fixpoint annotationImports (t : IRType) : list (string * string) :=
  match t with
  | AnyType => [("typing", "Any")]
  | ArrayType items => ("typing", "List") :: annotationImports items
  | MapType values => ("typing", "Dict") :: annotationImports values
  | UnionType members =>
      ("typing", match nullableFromUnion members with
                 | Some _ => "Optional"
                 | None => "Union"
                 end)
      :: flat_map annotationImports members
  | TransformedStringType kind =>
      if String.eqb kind "date-time" then [("datetime", "datetime")] else []
  | _ => []
  end.

(** The imports of a state are those of [st0] and those [S] lists. *)
Definition importsAre (st0 : RendererState) (S : string -> string -> Prop)
  (st : RendererState) : Prop :=
  forall module name,
    hasImport module name st <-> S module name \/ hasImport module name st0.

(** ** The lines of declarations *)

(** The lines [emitDescription] emits at an indentation: none without a
    description; one line between triple quotes for a description of one
    line; otherwise the lines, the first one after the opening triple
    quote, and the closing triple quote on a line of its own. *)
Definition descriptionLines (n : nat) (description : option (list string))
  : list Line :=
  let quotes := SString (dq +:+ dq +:+ dq) in
  match description with
  | None => []
  | Some [line] => [SourceLine n [quotes; SString line; quotes]]
  | Some lines =>
      match lines with
      | [] => []
      | first :: others =>
          SourceLine n [quotes; SString first]
          :: map (fun l => SourceLine n [SString ""; SString l]) others
      end
      ++ [SourceLine n [quotes]]
  end.

(** The line of a case of an enum. *)
Definition enumCaseLine (G : TypeGraph) (n : nat) (case : Name * string)
  : Line :=
  SourceLine n [SArray [SName case.1; SString (" = " +:+ dq);
                        SString (stringEscape G case.2); SString dq]].

(** The line a constructor assigns a property with, given the deserializer
    expression of its type. *)
Definition assignmentLine (G : TypeGraph) (n : nat) (cp : ClassProperty)
  (w : MultiWord) : Line :=
  SourceLine n
    [SString "self."; SName (cp_name cp); SString " = ";
     SArray [parenIfNeeded w; SString "(";
             SArray [SString ("obj[" +:+ dq);
                     SString (stringEscape G (cp_jsonName cp));
                     SString (dq +:+ "]")];
             SString ")"]].

(** The artifact [PythonRenderer] itself produces for a graph. *)
Definition renderPython (G : TypeGraph) : Result unit :=
  emitSourceStructure G PythonRenderer initialState.

(** The lines of a property in the body of its class: its description and
    its annotation. *)
Definition propertyLines (G : TypeGraph) (c : TypeRef) (n : nat)
  (cp : ClassProperty) (annotation : Sourcelike) : list Line :=
  descriptionLines n (descriptionForClassProperty G c (cp_jsonName cp))
  ++ [SourceLine n [SName (cp_name cp); SString ": "; annotation]].


(** Whether a quote character stands in one of the literal parts of a
    source text; the names are left aside. *)
Fixpoint holdsQuote (s : Sourcelike) : bool :=
  match s with
  | SString str => existsb (Ascii.eqb "'"%char) (list_ascii_of_string str)
  | SName _ => false
  | SArray parts => existsb holdsQuote parts
  end.

(** * Properties *)

(** ** Induction on types, through the members of a union *)

Section IRType_induction.
Variable P : IRType -> Prop.
Hypothesis Hleaf : forall t, isLeaf t -> P t.
Hypothesis Harray : forall items, P items -> P (ArrayType items).
Hypothesis Hmap : forall values, P values -> P (MapType values).
Hypothesis Hunion : forall members, Forall P members -> P (UnionType members).

Fixpoint IRType_ind' (t : IRType) : P t :=
  match t with
  | ArrayType items => Harray items (IRType_ind' items)
  | MapType values => Hmap values (IRType_ind' values)
  | UnionType members =>
      Hunion members
        ((fix go (l : list IRType) : Forall P l :=
            match l with
            | [] => @List.Forall_nil _ P
            | m :: l' => @List.Forall_cons _ P m l' (IRType_ind' m) (go l')
            end) members)
  | AnyType => Hleaf AnyType I
  | NullType => Hleaf NullType I
  | BoolType => Hleaf BoolType I
  | IntegerType => Hleaf IntegerType I
  | DoubleType => Hleaf DoubleType I
  | StringType => Hleaf StringType I
  | ClassType ref => Hleaf (ClassType ref) I
  | EnumType ref => Hleaf (EnumType ref) I
  | TransformedStringType kind => Hleaf (TransformedStringType kind) I
  end.
End IRType_induction.

(** ** The monad *)

Lemma bind_Ok {A B} (c : M A) (k : A -> M B) st b st'' :
  bind c k st = Ok b st'' <->
  exists a st', c st = Ok a st' /\ k a st' = Ok b st''.
Proof.
  unfold bind. destruct (c st) as [a st'| |]; split.
  - eauto.
  - by intros (? & ? & [= <- <-] & ?).
  - done.
  - by intros (? & ? & ? & ?).
  - done.
  - by intros (? & ? & ? & ?).
Qed.

Lemma mapM_ext_in {A B} (f g : A -> M B) l st :
  (forall x st, x ∈ l -> f x st = g x st) ->
  mapM f l st = mapM g l st.
Proof.
  revert st. induction l as [|x l IH]; intros st Hfg; [done|].
  simpl. unfold bind. rewrite Hfg by left.
  destruct (g x st) as [y st'| |]; [|done..].
  rewrite IH; [done|]. intros; apply Hfg. by right.
Qed.

(** ** The members of a union *)

Lemma insertMember_perm G m l : insertMember G m l ≡ₚ m :: l.
Proof.
  induction l as [|m' l IH]; simpl; [done|].
  destruct (memberLeb G m m'); [done|].
  rewrite IH. apply Permutation_swap.
Qed.

Lemma sortedMembers_perm G members : sortedMembers G members ≡ₚ members.
Proof.
  induction members as [|m l IH]; simpl; [done|].
  fold (sortedMembers G l). by rewrite insertMember_perm, IH.
Qed.

Lemma elem_of_sortedMembers G members m :
  m ∈ sortedMembers G members <-> m ∈ members.
Proof. by rewrite sortedMembers_perm. Qed.

Lemma nullableFromUnion_Some members t :
  nullableFromUnion members = Some t ->
  t ∈ members /\ isNullType t = false /\ NullType ∈ members.
Proof.
  unfold nullableFromUnion.
  destruct (filter _ members) as [|nonNull [|]] eqn:Hf; [done| |done].
  destruct (existsb isNullType members) eqn:Hex; [|done].
  intros [= <-].
  assert (nonNull ∈ filter (fun m => isNullType m = false) members) as Hin
    by (rewrite Hf; left).
  apply list_elem_of_filter in Hin as [Hnn Hin]. split_and!; [done..|].
  apply existsb_exists in Hex as (x & Hx & Hnull).
  apply list_elem_of_In in Hx. by destruct x.
Qed.

Lemma typeSize_pos t : 1 <= typeSize t.
Proof. destruct t; simpl; lia. Qed.

Lemma typeSize_member m members :
  m ∈ members -> typeSize m <= list_sum (map typeSize members).
Proof.
  induction 1 as [m l|m m' l _ IH]; simpl; lia.
Qed.

(** ** Enough fuel for [pythonType] *)

Section RendererFacts.
Variable G : TypeGraph.

Lemma pythonType_fuel_irrelevant n : forall m t st,
  typeSize t <= n -> typeSize t <= m ->
  pythonType_fuel G n t st = pythonType_fuel G m t st.
Proof.
  induction n as [|n IH]; intros m t st Hn Hm.
  { pose proof (typeSize_pos t). lia. }
  destruct m as [|m]; [pose proof (typeSize_pos t); lia|].
  destruct t; simpl in *; try done.
  - unfold bind. destruct (withTyping "List" st) as [? st1| |]; [|done..].
    by rewrite (IH m) by lia.
  - unfold bind. destruct (withTyping "Dict" st) as [? st1| |]; [|done..].
    by rewrite (IH m) by lia.
  - destruct (nullableFromUnion members) as [t|] eqn:Hnull.
    + apply nullableFromUnion_Some in Hnull as (Hin%typeSize_member & _).
      unfold bind. destruct (withTyping "Optional" st) as [? st1| |]; [|done..].
      by rewrite (IH m) by lia.
    + unfold bind.
      rewrite (mapM_ext_in _ (pythonType_fuel G m)); [done|].
      intros x st1 Hx%elem_of_sortedMembers%typeSize_member.
      apply IH; lia.
Qed.

Lemma pythonType_fuel_enough n t st :
  typeSize t <= n -> pythonType_fuel G n t st = pythonType G t st.
Proof. intros. by apply pythonType_fuel_irrelevant. Qed.

End RendererFacts.

(** ** Triples over the renderer's state *)

Lemma hoare_ext {A} P (c c' : M A) Q :
  (forall st, c st = c' st) -> hoare P c' Q -> hoare P c Q.
Proof. intros Heq H st a st' HP Hc. rewrite Heq in Hc. eauto. Qed.

Lemma hoare_ret {A} (P : RendererState -> Prop) (a : A)
  (Q : A -> RendererState -> Prop) :
  (forall st, P st -> Q a st) -> hoare P (ret a) Q.
Proof. intros H st b st' HP [= <- <-]. auto. Qed.

Lemma hoare_panic {A} P message (Q : A -> RendererState -> Prop) :
  hoare P (panic message) Q.
Proof. intros st a st' _ [=]. Qed.

Lemma hoare_bind {A B} P (c : M A) (Q1 : A -> RendererState -> Prop)
  (k : A -> M B) (Q : B -> RendererState -> Prop) :
  hoare P c Q1 -> (forall a, hoare (Q1 a) (k a) Q) -> hoare P (bind c k) Q.
Proof.
  intros Hc Hk st b st'' HP (a & st' & H1 & H2)%bind_Ok.
  eapply Hk; [eapply Hc|]; eassumption.
Qed.

Lemma preserves_ret {A} I (a : A) : preserves I (ret a).
Proof. by apply hoare_ret. Qed.

Lemma preserves_bind {A B} I (c : M A) (k : A -> M B) :
  preserves I c -> (forall a, preserves I (k a)) -> preserves I (bind c k).
Proof. intros; by eapply hoare_bind. Qed.

Lemma preserves_forEach {A} I (f : A -> M unit) l :
  (forall x, x ∈ l -> preserves I (f x)) -> preserves I (forEach f l).
Proof.
  induction l as [|x l IH]; intros Hf; simpl; [apply preserves_ret|].
  apply preserves_bind; [apply Hf; left|].
  intros _. apply IH. intros; apply Hf. by right.
Qed.

Lemma preserves_mapM {A B} I (f : A -> M B) l :
  (forall x, x ∈ l -> preserves I (f x)) -> preserves I (mapM f l).
Proof.
  induction l as [|x l IH]; intros Hf; simpl; [apply preserves_ret|].
  apply preserves_bind; [apply Hf; left|]. intros y.
  apply preserves_bind; [|intros; apply preserves_ret].
  apply IH. intros; apply Hf. by right.
Qed.

Lemma setEmitted_id st : setEmitted (emitted st) st = st.
Proof. by destruct st. Qed.

Lemma withImport_preserves I module name :
  ImportClosed I module -> preserves I (withImport module name).
Proof. intros HI st a st' Hst [= _ <-]. by apply HI. Qed.

Lemma emitLine_preserves I lineParts :
  AppendClosed I -> preserves I (emitLine lineParts).
Proof. intros HI st a st' Hst [= _ <-]. by apply HI. Qed.

Lemma ensureBlankLine_preserves I :
  AppendClosed I -> preserves I ensureBlankLine.
Proof.
  intros HI st a st' Hst. unfold ensureBlankLine.
  destruct (last (emitted st)) as [[]|]; intros [= _ <-]; auto.
Qed.

Lemma emitOptionalLine_preserves I line :
  AppendClosed I -> preserves I (emitOptionalLine line).
Proof.
  intros HI. destruct line; [by apply emitLine_preserves|apply preserves_ret].
Qed.

Lemma emitCommentLines_preserves I lines lineStart beforeLine afterLine first :
  AppendClosed I ->
  preserves I (emitCommentLines lines lineStart beforeLine afterLine first).
Proof.
  intros HI. unfold emitCommentLines.
  apply preserves_bind; [by apply emitOptionalLine_preserves|]. intros _.
  apply preserves_bind; [|intros; by apply emitOptionalLine_preserves].
  destruct lines; [apply preserves_ret|].
  apply preserves_bind; [by apply emitLine_preserves|]. intros _.
  apply preserves_forEach. intros; by apply emitLine_preserves.
Qed.

Lemma emitDescription_preserves I description :
  AppendClosed I -> preserves I (emitDescription description).
Proof.
  intros HI. destruct description as [lines|]; [|apply preserves_ret].
  simpl. unfold emitDescriptionBlock.
  destruct lines as [|? [|]];
    auto using emitCommentLines_preserves, emitLine_preserves.
Qed.

(** ** The annotation renderer, clause by clause *)

Section PythonTypeFacts.
Variable G : TypeGraph.

Lemma pythonType_array items st :
  pythonType G (ArrayType items) st =
  (list_ <- withTyping "List" ;;
   inner <- pythonType G items ;;
   ret (SArray [list_; SString "["; inner; SString "]"])) st.
Proof. reflexivity. Qed.

Lemma pythonType_map values st :
  pythonType G (MapType values) st =
  (dict_ <- withTyping "Dict" ;;
   inner <- pythonType G values ;;
   ret (SArray [dict_; SString "[str, "; inner; SString "]"])) st.
Proof. reflexivity. Qed.

Lemma pythonType_union_nullable members t st :
  nullableFromUnion members = Some t ->
  pythonType G (UnionType members) st =
  (optional_ <- withTyping "Optional" ;;
   inner <- pythonType G t ;;
   ret (SArray [optional_; SString "["; inner; SString "]"])) st.
Proof.
  intros Hnull. unfold pythonType at 1. simpl. rewrite Hnull.
  apply nullableFromUnion_Some in Hnull as (Hin%typeSize_member & _).
  unfold bind. destruct (withTyping "Optional" st) as [? st1| |]; [|done..].
  by rewrite pythonType_fuel_enough.
Qed.

Lemma pythonType_union_general members st :
  nullableFromUnion members = None ->
  pythonType G (UnionType members) st =
  (memberTypes <- mapM (pythonType G) (sortedMembers G members) ;;
   union_ <- withTyping "Union" ;;
   ret (SArray [union_; SString "[";
                SArray (arrayIntercalate (SString ", ") memberTypes);
                SString "]"])) st.
Proof.
  intros Hnull. unfold pythonType at 1. simpl. rewrite Hnull.
  unfold bind. rewrite (mapM_ext_in _ (pythonType G)); [done|].
  intros m st1 Hm%elem_of_sortedMembers%typeSize_member.
  by apply pythonType_fuel_enough.
Qed.

Lemma namedType_preserves I t : preserves I (namedType G t).
Proof.
  intros st a st' Hst. unfold namedType.
  by destruct (decide _); intros [= _ <-].
Qed.

(** [pythonType] touches the imports only: the typing module always, the
    datetime module only for a type with a date-time node. *)
Lemma pythonType_preserves' I t :
  ImportClosed I "typing" ->
  (hasDateTime t = true -> ImportClosed I "datetime") ->
  preserves I (pythonType G t).
Proof.
  intros Htyping. induction t as [t Hleaf|items IH|values IH|members IH]
    using IRType_ind'; intros Hdatetime.
  - destruct t; try done;
      try apply preserves_ret; try apply namedType_preserves.
    + by apply withImport_preserves.
    + unfold pythonType. simpl in *.
      destruct (String.eqb kind "date-time");
        [apply withImport_preserves; auto|apply hoare_panic].
  - eapply hoare_ext; [apply pythonType_array|].
    apply preserves_bind; [by apply withImport_preserves|]. intros ?.
    apply preserves_bind; [by apply IH|]. intros ?. apply preserves_ret.
  - eapply hoare_ext; [apply pythonType_map|].
    apply preserves_bind; [by apply withImport_preserves|]. intros ?.
    apply preserves_bind; [by apply IH|]. intros ?. apply preserves_ret.
  - assert (forall m, m ∈ members -> preserves I (pythonType G m)) as Hm.
    { intros m Hin. eapply Forall_forall in IH; [apply IH|done].
      intros Hdt. apply Hdatetime. simpl. apply existsb_exists.
      exists m. by rewrite <- list_elem_of_In. }
    destruct (nullableFromUnion members) as [t|] eqn:Hnull.
    + eapply hoare_ext; [intros; by apply pythonType_union_nullable|].
      apply nullableFromUnion_Some in Hnull as (Hin & _).
      apply preserves_bind; [by apply withImport_preserves|]. intros ?.
      apply preserves_bind; [by apply Hm|]. intros ?. apply preserves_ret.
    + eapply hoare_ext; [intros; by apply pythonType_union_general|].
      apply preserves_bind.
      * apply preserves_mapM. intros m Hin%elem_of_sortedMembers. by apply Hm.
      * intros ?. apply preserves_bind; [by apply withImport_preserves|].
        intros ?. apply preserves_ret.
Qed.

Lemma pythonType_preserves I t :
  (forall module, ImportClosed I module) -> preserves I (pythonType G t).
Proof. intros HI. by apply pythonType_preserves'. Qed.

End PythonTypeFacts.

(** ** The deserializer synthesizer *)

Lemma setDeserializerFunctions_id st :
  setDeserializerFunctions (deserializerFunctions st) st = st.
Proof. by destruct st. Qed.

Lemma addAll_app {A} `{EqDecision A} (l1 l2 s : list A) :
  addAll (l1 ++ l2) s = addAll l2 (addAll l1 s).
Proof. unfold addAll. apply foldl_app. Qed.

Section DeserializerFacts.
Variable G : TypeGraph.

Lemma deserializers_state members : forall st ds st',
  Forall (fun t => forall st w st',
            deserializerFn G t st = Ok w st' ->
            st' = setDeserializerFunctions
                    (addAll (referencedCombinators t) (deserializerFunctions st))
                    st) members ->
  mapM (fun m => w <- deserializerFn G m ;; ret (source w)) members st
    = Ok ds st' ->
  st' = setDeserializerFunctions
          (addAll (flat_map referencedCombinators members)
                  (deserializerFunctions st)) st.
Proof.
  induction members as [|m l IHl]; intros st ds st' Hall; simpl.
  - intros [= _ <-]. by rewrite setDeserializerFunctions_id.
  - apply Forall_cons in Hall as [Hm Hl].
    intros (y & st1 & (w & st0 & Hw & [= _ <-])%bind_Ok
              & (ys & st2 & Hrest & [= _ <-])%bind_Ok)%bind_Ok.
    apply Hm in Hw as ->. apply IHl in Hrest as ->; [|done].
    by rewrite addAll_app.
Qed.

(** The only field [deserializerFn] writes is the set of used combinators,
    to which it adds the ones the type refers to, in order. *)
Lemma deserializerFn_state t : forall st w st',
  deserializerFn G t st = Ok w st' ->
  st' = setDeserializerFunctions
          (addAll (referencedCombinators t) (deserializerFunctions st)) st.
Proof.
  induction t as [t Hleaf|items IH|values IH|members IH] using IRType_ind';
    intros st w st'.
  - destruct t; try done; simpl;
      try (intros [= _ <-]; by rewrite ?setDeserializerFunctions_id).
    destruct (String.eqb kind "date-time"); [|done].
    by intros [= _ <-].
  - simpl. intros (f & st1 & [= _ <-] & (inner & st2 & Hrun & [= _ <-])%bind_Ok)%bind_Ok.
    by apply IH in Hrun as ->.
  - simpl. intros (f & st1 & [= _ <-] & (inner & st2 & Hrun & [= _ <-])%bind_Ok)%bind_Ok.
    by apply IH in Hrun as ->.
  - simpl. intros (ds & st1 & Hrun & (f & st2 & [= _ <-] & [= _ <-])%bind_Ok)%bind_Ok.
    apply deserializers_state in Hrun as ->; [|done].
    by rewrite addAll_app.
Qed.

End DeserializerFacts.

(** ** Unsupported kinds end in a panic that names them *)

Lemma flat_map_nil {A B} (f : A -> list B) l :
  (forall x, x ∈ l -> f x = []) -> flat_map f l = [].
Proof.
  induction l as [|x l IH]; intros Hf; simpl; [done|].
  rewrite Hf by left. apply IH. intros; apply Hf. by right.
Qed.

Lemma elem_of_flat_map {A B} (f : A -> list B) l y :
  y ∈ flat_map f l <-> exists x, x ∈ l /\ y ∈ f x.
Proof.
  rewrite list_elem_of_In, in_flat_map.
  by setoid_rewrite list_elem_of_In.
Qed.

Lemma nullableFromUnion_members members t m :
  nullableFromUnion members = Some t -> m ∈ members -> m = NullType \/ m = t.
Proof.
  unfold nullableFromUnion.
  destruct (filter _ members) as [|nonNull [|]] eqn:Hf; [done| |done].
  destruct (existsb isNullType members); [|done]. intros [= <-] Hin.
  destruct (isNullType m) eqn:Hm; [left; by destruct m|right].
  assert (m ∈ filter (fun m => isNullType m = false) members) as Hin'
    by by apply list_elem_of_filter.
  rewrite Hf in Hin'. by apply list_elem_of_singleton in Hin'.
Qed.

Lemma mapM_outcome {B} (f : IRType -> M B) l :
  (forall m, m ∈ l -> forall st, outcomeNamesKind m (f m st)) ->
  forall st, outcomeNamesKind (UnionType l) (mapM f l st).
Proof.
  induction l as [|m l IH]; intros Hf st; simpl; [done|].
  unfold bind. pose proof (Hf m ltac:(left) st) as Hm.
  destruct (f m st) as [y st1|message|]; simpl in Hm; [| |done].
  - specialize (IH (fun m' Hin => Hf m' ltac:(by right)) st1).
    destruct (mapM f l st1) as [ys st2|message|]; simpl in *; [| |done].
    + by rewrite Hm, IH.
    + destruct IH as (kind & Hin & ->). exists kind. split; [|done].
      apply elem_of_app. by right.
  - destruct Hm as (kind & Hin & ->). exists kind. split; [|done].
    apply elem_of_app. by left.
Qed.

Lemma flat_map_nil_inv {A B} (f : A -> list B) l x :
  flat_map f l = [] -> x ∈ l -> f x = [].
Proof.
  intros Hnil Hin. destruct (f x) as [|y ys] eqn:Hfx; [done|].
  assert (y ∈ flat_map f l) as Hy
    by (apply elem_of_flat_map; exists x; rewrite Hfx; split; [done|left]).
  rewrite Hnil in Hy. by apply elem_of_nil in Hy.
Qed.

Section OutcomeFacts.
Variable G : TypeGraph.

Lemma pythonType_outcome t : forall st, outcomeNamesKind t (pythonType G t st).
Proof.
  induction t as [t Hleaf|items IH|values IH|members IH] using IRType_ind';
    intros st.
  - destruct t; try done.
    + change (pythonType G (ClassType ref) st) with (namedType G ref st).
      unfold namedType. by case_decide.
    + change (pythonType G (EnumType ref) st) with (namedType G ref st).
      unfold namedType. by case_decide.
    + unfold pythonType. simpl.
      destruct (String.eqb kind "date-time") eqn:E; simpl; rewrite E; [done|].
      exists kind. split; [left|done].
  - rewrite pythonType_array. unfold bind. simpl.
    match goal with |- context [pythonType G items ?s] =>
      specialize (IH s); by destruct (pythonType G items s) end.
  - rewrite pythonType_map. unfold bind. simpl.
    match goal with |- context [pythonType G values ?s] =>
      specialize (IH s); by destruct (pythonType G values s) end.
  - destruct (nullableFromUnion members) as [t|] eqn:Hnull.
    + rewrite (pythonType_union_nullable _ _ t) by done.
      pose proof (nullableFromUnion_Some _ _ Hnull) as (Hin & _).
      eapply Forall_forall in IH; [|exact Hin].
      unfold bind. simpl.
      match goal with |- context [pythonType G t ?s] =>
        specialize (IH s); destruct (pythonType G t s) as [? ?|message|] end;
        simpl in *; [| |done].
      * apply flat_map_nil.
        intros m [->| ->]%(nullableFromUnion_members _ t); done.
      * destruct IH as (kind & Hkind & ->). exists kind. split; [|done].
        apply elem_of_flat_map. eauto.
    + rewrite pythonType_union_general by done. unfold bind.
      pose proof (mapM_outcome (pythonType G) (sortedMembers G members)) as Hm.
      match goal with |- context [mapM _ _ ?s] => specialize (Hm
        (fun m Hin => proj1 (Forall_forall _ _) IH m
                        (proj1 (elem_of_sortedMembers G members m) Hin)) s);
        destruct (mapM (pythonType G) (sortedMembers G members) s)
          as [? ?|message|] end; simpl in *; [| |done].
      * apply flat_map_nil. intros m Hin%(elem_of_sortedMembers G).
        by eapply flat_map_nil_inv.
      * destruct Hm as (kind & (m & Hin & Hkind)%elem_of_flat_map & ->).
        exists kind. split; [|done]. apply elem_of_flat_map.
        exists m. by rewrite <- (elem_of_sortedMembers G).
Qed.

Lemma deserializerFn_outcome t :
  forall st, outcomeNamesKind t (deserializerFn G t st).
Proof.
  induction t as [t Hleaf|items IH|values IH|members IH] using IRType_ind';
    intros st.
  - destruct t; try done. simpl.
    destruct (String.eqb kind "date-time") eqn:E; simpl; rewrite E; [done|].
    exists kind. split; [left|done].
  - simpl. unfold bind. simpl.
    match goal with |- context [deserializerFn G items ?s] =>
      specialize (IH s); by destruct (deserializerFn G items s) end.
  - simpl. unfold bind at 1. simpl. unfold bind.
    match goal with |- context [deserializerFn G values ?s] =>
      specialize (IH s); by destruct (deserializerFn G values s) end.
  - simpl. unfold bind at 1.
    pose proof (mapM_outcome
      (fun m => w <- deserializerFn G m ;; ret (source w)) members) as Hm.
    match goal with |- context [mapM ?f members st] =>
      specialize (Hm (fun m Hin s => ltac:(
        unfold bind; pose proof (proj1 (Forall_forall _ _) IH m Hin s);
        by destruct (deserializerFn G m s))) st);
      destruct (mapM f members st) as [? ?|message|] end; done.
Qed.

End OutcomeFacts.

(** ** How a run changes the state *)

Lemma evolves_refl st : evolves ∅ [] st st.
Proof.
  split_and!; [set_solver|done| |done]. exists []. by rewrite app_nil_r.
Qed.

Lemma evolves_trans d1 u1 d2 u2 st st1 st2 :
  evolves d1 u1 st st1 -> evolves d2 u2 st1 st2 ->
  evolves (d1 ∪ d2) (u1 ++ u2) st st2.
Proof.
  intros (Hd1 & Hu1 & [l1 He1] & Hi1) (Hd2 & Hu2 & [l2 He2] & Hi2).
  split_and!.
  - rewrite Hd2, Hd1. set_solver.
  - by rewrite Hu2, Hu1, addAll_app.
  - exists (l1 ++ l2). by rewrite He2, He1, <- app_assoc.
  - congruence.
Qed.

Lemma runs_eq {A} (c : M A) d u d' u' :
  d = d' -> u = u' -> runs c d u -> runs c d' u'.
Proof. by intros -> ->. Qed.

Lemma runs_ret {A} (a : A) : runs (ret a) ∅ [].
Proof. intros st b st' [= _ <-]. apply evolves_refl. Qed.

Lemma runs_panic {A} message d u : runs (@panic A message) d u.
Proof. intros st a st' [=]. Qed.

Lemma runs_bind {A B} (c : M A) (k : A -> M B) d1 u1 d2 u2 :
  runs c d1 u1 -> (forall a, runs (k a) d2 u2) ->
  runs (bind c k) (d1 ∪ d2) (u1 ++ u2).
Proof.
  intros Hc Hk st b st'' (a & st' & H1 & H2)%bind_Ok.
  eapply evolves_trans; [by eapply Hc|by eapply Hk].
Qed.

(** A step that keeps every invariant closed under appended lines and
    under imports changes nothing else. *)
Lemma runs_quiet {A} (c : M A) :
  (forall I, AppendClosed I -> (forall module, ImportClosed I module) ->
             preserves I c) ->
  runs c ∅ [].
Proof.
  intros Hc st a st' Hrun.
  eapply (Hc (evolves ∅ [] st)); [| |apply evolves_refl|exact Hrun].
  - intros lines s (Hd & Hu & [l He] & Hi). split_and!; [done..| |done].
    exists (l ++ lines). simpl. by rewrite He, <- app_assoc.
  - intros module name s (Hd & Hu & He & Hi). by split_and!.
Qed.

Lemma runs_quiet_bind_l {A B} (c : M A) (k : A -> M B) d u :
  runs c ∅ [] -> (forall a, runs (k a) d u) -> runs (bind c k) d u.
Proof.
  intros Hc Hk. eapply runs_eq; [| |by apply runs_bind].
  - set_solver.
  - done.
Qed.

Lemma runs_quiet_bind_r {A B} (c : M A) (k : A -> M B) d u :
  runs c d u -> (forall a, runs (k a) ∅ []) -> runs (bind c k) d u.
Proof.
  intros Hc Hk. eapply runs_eq; [| |by apply runs_bind].
  - set_solver.
  - by rewrite app_nil_r.
Qed.

Lemma runs_forEach {A} (f : A -> M unit) (D : A -> gset TypeRef)
  (U : A -> list DeserializerFunction) l :
  (forall x, x ∈ l -> runs (f x) (D x) (U x)) ->
  runs (forEach f l) (⋃ (D <$> l)) (flat_map U l).
Proof.
  induction l as [|x l IH]; intros Hf; simpl; [apply runs_ret|].
  apply runs_bind; [apply Hf; left|].
  intros _. apply IH. intros; apply Hf. by right.
Qed.

Lemma union_list_empty {A} (l : list A) :
  ⋃ ((fun _ => ∅) <$> l) = (∅ : gset TypeRef).
Proof.
  induction l as [|x l IH]; [done|].
  rewrite fmap_cons, union_list_cons, IH. set_solver.
Qed.

Lemma runs_indent f d u : runs f d u -> runs (indent f) d u.
Proof.
  intros Hf st a st'. unfold indent.
  destruct (f _) as [? st1| |] eqn:Hrun; intros [= _ <-].
  apply Hf in Hrun as (Hd & Hu & He & Hi). by split_and!.
Qed.

Lemma runs_gatherSource f d u : runs f d u -> runs (gatherSource f) d u.
Proof.
  intros Hf st a st'. unfold gatherSource.
  destruct (f _) as [? st1| |] eqn:Hrun; intros [= _ <-].
  apply Hf in Hrun as (Hd & Hu & He & Hi). split_and!; [done..| |done].
  exists []. simpl. by rewrite app_nil_r.
Qed.

Lemma runs_emitLine lineParts : runs (emitLine lineParts) ∅ [].
Proof. apply runs_quiet. intros; by apply emitLine_preserves. Qed.

Lemma runs_ensureBlankLine : runs ensureBlankLine ∅ [].
Proof. apply runs_quiet. intros; by apply ensureBlankLine_preserves. Qed.

Lemma runs_emitDescription description :
  runs (emitDescription description) ∅ [].
Proof. apply runs_quiet. intros; by apply emitDescription_preserves. Qed.

Lemma runs_emitBlock line f d u : runs f d u -> runs (emitBlock line f) d u.
Proof.
  intros Hf. apply runs_quiet_bind_l; [apply runs_emitLine|].
  intros _. by apply runs_indent.
Qed.

Lemma runs_addDeclaredType t :
  runs (addDeclaredType t)
       (match t with ClassType ref | EnumType ref => {[ref]} | _ => ∅ end) [].
Proof.
  intros st a st'. unfold addDeclaredType.
  destruct t; intros [= _ <-]; try apply evolves_refl.
  all: split_and!; [done..| |done]; exists []; simpl; by rewrite app_nil_r.
Qed.

Section EmitterFacts.
Variable G : TypeGraph.

Lemma runs_pythonType t : runs (pythonType G t) ∅ [].
Proof. apply runs_quiet. intros; by apply pythonType_preserves. Qed.

Lemma runs_deserializer value t :
  runs (deserializer G value t) ∅ (referencedCombinators t).
Proof.
  intros st a st' (w & st1 & ->%deserializerFn_state & [= _ <-])%bind_Ok.
  split_and!; [set_solver|done| |done]. exists []. simpl. by rewrite app_nil_r.
Qed.

Lemma runs_declarationLine t : runs (declarationLine G t) ∅ [].
Proof.
  destruct t; try apply runs_panic; [apply runs_ret|].
  apply runs_quiet. intros I HA HI.
  apply preserves_bind; [by apply withImport_preserves|].
  intros; apply preserves_ret.
Qed.

Lemma runs_declareType t emitter u :
  runs emitter ∅ u ->
  runs (declareType G t emitter)
       (match t with ClassType ref | EnumType ref => {[ref]} | _ => ∅ end) u.
Proof.
  intros He. unfold declareType.
  apply runs_quiet_bind_l; [apply runs_emitDescription|]. intros _.
  apply runs_quiet_bind_l; [apply runs_declarationLine|]. intros line.
  eapply runs_eq; [| |apply runs_bind;
    [by apply runs_emitBlock|intros; apply runs_addDeclaredType]].
  - set_solver.
  - by rewrite app_nil_r.
Qed.

(** The combinators the constructor of a class refers to. *)
Lemma runs_JSON_emitClassMembers t :
  runs (JSON_emitClassMembers G t) ∅
       (flat_map (fun cp => referencedCombinators (cp_type cp))
                 (getProperties G t)).
Proof.
  apply runs_emitBlock.
  apply runs_quiet_bind_l; [apply runs_emitLine|]. intros _.
  eapply runs_eq; [| |apply (runs_forEach _ (fun _ => ∅))].
  - apply union_list_empty.
  - done.
  - intros cp _. apply runs_quiet_bind_r; [apply runs_deserializer|].
    intros; apply runs_emitLine.
Qed.

End EmitterFacts.

(** ** Declarations *)

Lemma evolves_elem_of d u st st' line :
  evolves d u st st' -> line ∈ emitted st -> line ∈ emitted st'.
Proof. intros (_ & _ & [l ->] & _) Hin. apply elem_of_app. by left. Qed.

Lemma evolves_declared d u st st' t :
  evolves d u st st' -> t ∈ declaredTypes st' <-> t ∈ d \/ t ∈ declaredTypes st.
Proof. intros (-> & _). set_solver. Qed.

Lemma forEach_elem_of {A} (f : A -> M unit) l x st st' :
  (forall y, runs (f y) ∅ []) ->
  x ∈ l -> forEach f l st = Ok tt st' ->
  exists sa sb,
    evolves ∅ [] st sa /\ f x sa = Ok tt sb /\ evolves ∅ [] sb st'.
Proof.
  intros Hf Hin. revert st.
  induction Hin as [x l|x y l Hin IH]; intros st; simpl;
    intros ([] & st1 & Hhead & Hrest)%bind_Ok.
  - exists st, st1. split_and!; [apply evolves_refl|done|].
    eapply runs_eq;
      [| |apply (runs_forEach f (fun _ => ∅) (fun _ => []) l)|exact Hrest].
    + apply union_list_empty.
    + by apply flat_map_nil.
    + intros; apply Hf.
  - apply IH in Hrest as (sa & sb & Ha & Hx & Hb).
    exists sa, sb. split_and!; [|done..].
    apply Hf in Hhead.
    eapply (evolves_trans ∅ [] ∅ []) in Ha; [|exact Hhead].
    revert Ha. by rewrite (left_id_L ∅ (∪)).
Qed.

Section DeclarationFacts.
Variable G : TypeGraph.
Variable R : RendererClass.
(** What the members after the properties refer to. *)
Variable U : TypeRef -> list DeserializerFunction.
Hypothesis members_run : forall c, runs (emitClassMembers R c) ∅ (U c).
Hypothesis members_none : forall c, getProperties G c = [] -> U c = [].

Lemma runs_property c cp :
  runs (emitDescription (descriptionForClassProperty G c (cp_jsonName cp)) ;;
        annotation <- pythonType G (cp_type cp) ;;
        emitLine [SName (cp_name cp); SString ": "; annotation]) ∅ [].
Proof.
  apply runs_quiet_bind_l; [apply runs_emitDescription|]. intros _.
  apply runs_quiet_bind_l; [apply runs_pythonType|]. intros ?.
  apply runs_emitLine.
Qed.

Lemma runs_emitClass c : runs (emitClass G R c) {[c]} (U c).
Proof.
  apply (runs_declareType G (ClassType c)).
  destruct (getProperties G c) as [|cp l] eqn:Hprops.
  - rewrite members_none by done. apply runs_emitLine.
  - apply runs_quiet_bind_l.
    + eapply runs_eq;
        [| |apply (runs_forEach _ (fun _ => ∅) (fun _ => []) (cp :: l))].
      * apply union_list_empty.
      * by apply flat_map_nil.
      * intros; apply runs_property.
    + intros _. apply runs_quiet_bind_l; [apply runs_ensureBlankLine|].
      intros _. apply members_run.
Qed.

Lemma runs_emitEnum c : runs (emitEnum G c) {[c]} [].
Proof.
  apply (runs_declareType G (EnumType c)).
  eapply runs_eq; [| |apply (runs_forEach _ (fun _ => ∅) (fun _ => []))].
  - apply union_list_empty.
  - by apply flat_map_nil.
  - intros [name jsonName] _. apply runs_emitLine.
Qed.

Lemma runs_emitDeclaration decl :
  runs (emitDeclaration G R decl) (declaredBy decl) (declarationUses U decl).
Proof.
  unfold emitDeclaration, declaredBy, declarationUses.
  destruct (decl_kind decl); [apply runs_ret|].
  destruct (decl_type decl);
    auto using runs_panic, runs_ret, runs_emitClass, runs_emitEnum.
Qed.

Lemma runs_declarations decls :
  runs (forEachInterposing (emitDeclaration G R) decls)
       (⋃ (declaredBy <$> decls)) (flat_map (declarationUses U) decls).
Proof.
  destruct decls as [|decl decls]; [apply runs_ret|].
  simpl. apply runs_bind; [apply runs_emitDeclaration|]. intros _.
  apply runs_forEach. intros d _.
  apply runs_quiet_bind_l; [apply runs_ensureBlankLine|].
  intros _. apply runs_emitDeclaration.
Qed.

(** A property of a class typed as the class itself is annotated with the
    quoted name, the class not being declared before its body is over. *)
Lemma emitClass_self_reference c cp st st' :
  c ∉ declaredTypes st ->
  cp ∈ getProperties G c -> cp_type cp = ClassType c ->
  emitClass G R c st = Ok tt st' ->
  SourceLine (S (indentation st))
             [SName (cp_name cp); SString ": "; quoted (nameForNamedType G c)]
    ∈ emitted st'.
Proof.
  intros Hnew Hcp Htype. unfold emitClass, declareType.
  intros ([] & st1 & H1%runs_emitDescription
          & (line & st2 & H2%runs_declarationLine
             & ([] & st3 & Hblock & H4%runs_addDeclaredType)%bind_Ok)%bind_Ok)%bind_Ok.
  eapply evolves_elem_of; [exact H4|]. clear H4.
  revert Hblock. unfold emitBlock.
  intros ([] & st2' & H3%runs_emitLine & Hindent)%bind_Ok.
  revert Hindent. unfold indent.
  destruct (getProperties G c) as [|cp0 l] eqn:Hprops; [by apply elem_of_nil in Hcp|].
  match goal with |- context [bind ?f ?k ?s] =>
    destruct (bind f k s) as [[] st3'| |] eqn:Hbody end; intros [= <-].
  simpl. apply bind_Ok in Hbody as ([] & s1 & Hloop & Hrest).
  assert (evolves ∅ (U c) s1 st3') as Hafter.
  { revert Hrest. apply runs_quiet_bind_l; [apply runs_ensureBlankLine|].
    intros; apply members_run. }
  eapply evolves_elem_of; [exact Hafter|]. clear Hafter Hrest.
  eapply forEach_elem_of in Hloop as (sa & sb & Ha & Hrun & Hb);
    [|intros; apply runs_property|exact Hcp].
  eapply evolves_elem_of; [exact Hb|]. clear Hb.
  apply bind_Ok in Hrun as ([] & sa1 & Hd%runs_emitDescription & Hrun).
  rewrite Htype in Hrun.
  change (pythonType G (ClassType c)) with (namedType G c) in Hrun.
  destruct H1 as (Hd1 & _ & _ & Hi1), H2 as (Hd2 & _ & _ & Hi2),
    H3 as (Hd3 & _ & _ & Hi3), Ha as (Hda & _ & _ & Hia),
    Hd as (Hdd & _ & _ & Hid).
  simpl in *. rewrite (left_id_L ∅ (∪)) in Hd1, Hd2, Hd3, Hda, Hdd.
  assert (declaredTypes sa1 = declaredTypes st) as Hdecl by congruence.
  assert (indentation sa1 = S (indentation st)) as Hind by congruence.
  revert Hrun. unfold bind, namedType. rewrite Hdecl.
  case_decide; [done|]. intros [= <-]. simpl.
  apply elem_of_app. right. rewrite Hind. left.
Qed.

End DeclarationFacts.

(** ** The support code *)

Lemma elem_of_setAdd {A} `{EqDecision A} (x y : A) s :
  y ∈ setAdd x s <-> y = x \/ y ∈ s.
Proof.
  unfold setAdd. case_decide; [|set_solver].
  split; [by right|]. by intros [->|].
Qed.

Lemma NoDup_setAdd {A} `{EqDecision A} (x : A) s :
  NoDup s -> NoDup (setAdd x s).
Proof.
  unfold setAdd. case_decide; [done|]. intros Hs.
  apply NoDup_app. split_and!; [done| |apply NoDup_singleton].
  intros y Hy ->%list_elem_of_singleton. done.
Qed.

Lemma elem_of_addAll {A} `{EqDecision A} (l s : list A) y :
  y ∈ addAll l s <-> y ∈ l \/ y ∈ s.
Proof.
  revert s. induction l as [|x l IH]; intros s; simpl.
  - split; [by right|]. intros [[]%elem_of_nil|]; done.
  - unfold addAll in *. simpl. rewrite IH, elem_of_setAdd, elem_of_cons.
    tauto.
Qed.

Lemma NoDup_addAll {A} `{EqDecision A} (l s : list A) :
  NoDup s -> NoDup (addAll l s).
Proof.
  revert s. induction l as [|x l IH]; intros s Hs; [done|].
  apply IH. by apply NoDup_setAdd.
Qed.

Lemma splitLines_nonempty current s : splitLines current s <> [].
Proof.
  revert current. induction s as [|c s IH]; intros current; simpl; [done|].
  destruct (Ascii.eqb c "010"); [done|apply IH].
Qed.

Lemma forEach_emitLine lines : forall st,
  forEach (fun line => emitLine [SString line]) lines st =
  Ok tt (setEmitted
           (emitted st
            ++ map (fun l => SourceLine (indentation st) [SString l]) lines)
           st).
Proof.
  induction lines as [|l lines IH]; intros st; simpl.
  - by rewrite app_nil_r, setEmitted_id.
  - unfold bind, emitLine. rewrite IH. simpl. by rewrite <- app_assoc.
Qed.

Lemma emitSupportCode_lines dfs : forall st,
  forEach (fun df =>
             emitMultiline (deserializerFunctionCodes df) ;; ensureBlankLine)
          dfs st =
  Ok tt (setEmitted (emitted st ++ supportCode (indentation st) dfs) st).
Proof.
  induction dfs as [|df dfs IH]; intros st; simpl.
  - by rewrite app_nil_r, setEmitted_id.
  - unfold bind at 1. unfold bind at 1. unfold emitMultiline.
    rewrite forEach_emitLine. unfold ensureBlankLine. simpl.
    destruct (splitLines "" (deserializerFunctionCodes df)) as [|l ls] eqn:Hs;
      [by apply splitLines_nonempty in Hs|].
    rewrite last_app. 
    destruct (last (map _ (l :: ls))) as [[]|] eqn:Hlast.
    + rewrite IH. simpl. unfold supportCodeLines. rewrite Hs.
      by rewrite <- !app_assoc.
    + apply last_Some in Hlast as [l' Hl'].
      apply (f_equal (fun x => BlankLine ∈ x)) in Hl'.
      assert (BlankLine ∈ map (fun l0 => SourceLine (indentation st) [SString l0])
                (l :: ls)) as (? & [=] & _)%list_elem_of_fmap.
      { rewrite Hl'. apply elem_of_app. right. left. }
    + by apply last_None in Hlast.
Qed.

Lemma JSON_emitSupportCode_run st :
  JSON_emitSupportCode st =
  Ok tt (setEmitted
           (emitted st
            ++ supportCode (indentation st) (deserializerFunctions st)) st).
Proof. unfold JSON_emitSupportCode. apply emitSupportCode_lines. Qed.

Lemma supportCode_last n dfs :
  last (supportCode n dfs) = None \/ last (supportCode n dfs) = Some BlankLine.
Proof.
  induction dfs as [|df dfs IH] using rev_ind; [by left|right].
  unfold supportCode. rewrite flat_map_app. simpl. rewrite app_nil_r.
  unfold supportCodeLines. by rewrite !app_assoc, last_snoc.
Qed.

Lemma ensureBlankLine_last st st' :
  ensureBlankLine st = Ok tt st' ->
  last (emitted st') = None \/ last (emitted st') = Some BlankLine.
Proof.
  unfold ensureBlankLine.
  destruct (last (emitted st)) as [[]|] eqn:Hlast; intros [= <-]; simpl; auto.
  right. apply last_snoc.
Qed.

Lemma ensureBlankLine_noop st :
  last (emitted st) = None \/ last (emitted st) = Some BlankLine ->
  ensureBlankLine st = Ok tt st.
Proof. unfold ensureBlankLine. by intros [-> | ->]. Qed.

(** ** The whole artifact *)

Lemma emitImports_preserves I : AppendClosed I -> preserves I emitImports.
Proof.
  intros HI st a st' Hst. unfold emitImports.
  apply (preserves_forEach I); [|done].
  intros [module names] _. by apply emitLine_preserves.
Qed.

Lemma runs_emitHeader G : runs (emitHeader G) ∅ [].
Proof.
  apply runs_quiet. intros I HA _. unfold emitHeader.
  apply preserves_bind.
  { destruct (leadingComments G); by apply emitCommentLines_preserves. }
  intros _. apply preserves_bind; [by apply ensureBlankLine_preserves|].
  intros _. apply preserves_bind; [by apply emitImports_preserves|].
  intros _. by apply ensureBlankLine_preserves.
Qed.

Lemma gatherSource_support st :
  gatherSource JSON_emitSupportCode st =
  Ok (supportCode (indentation st) (deserializerFunctions st)) st.
Proof.
  unfold gatherSource. rewrite JSON_emitSupportCode_run. simpl.
  by destruct st.
Qed.

Lemma classCombinators_none G c :
  getProperties G c = [] -> classCombinators G c = [].
Proof. unfold classCombinators. by intros ->. Qed.

(** The artifact of [JSONPythonRenderer]: the head, the support code of the
    combinators the declarations referred to, the declarations. *)
Lemma renderJSON_structure G st :
  renderJSON G = Ok tt st ->
  exists declarationLines st1 st6,
    gatherSource
      (forEachInterposing (emitDeclaration G (JSONPythonRenderer G))
                          (declarations G)) initialState
      = Ok declarationLines st1
    /\ emitted st1 = []
    /\ emitHeader G st1 = Ok tt st6
    /\ deserializerFunctions st = addAll (graphCombinators G) []
    /\ emitted st =
       emitted st6 ++ supportCode 0 (deserializerFunctions st)
                   ++ declarationLines.
Proof.
  unfold renderJSON, emitSourceStructure.
  intros (declarationLines & st1 & Hdecl & H)%bind_Ok.
  apply bind_Ok in H as (supportLines & st2 & Hsup & H).
  simpl in Hsup. rewrite gatherSource_support in Hsup.
  injection Hsup as <- <-.
  apply bind_Ok in H as ([] & st3 & Hcomments & H).
  apply bind_Ok in H as ([] & st4 & Hblank1 & H).
  apply bind_Ok in H as ([] & st5 & Himports & H).
  apply bind_Ok in H as ([] & st6 & Hblank2 & H).
  apply bind_Ok in H as ([] & st7 & [= <-] & H).
  apply bind_Ok in H as ([] & st8 & Hblank3 & [= <-]).
  assert (emitHeader G st1 = Ok tt st6) as Hheader.
  { unfold emitHeader, bind. by rewrite Hcomments, Hblank1, Himports. }
  pose proof (runs_emitHeader G _ _ _ Hheader) as (_ & Hu6 & _ & Hi6).
  pose proof (runs_gatherSource _ _ _
    (runs_declarations G (JSONPythonRenderer G) (classCombinators G)
       (runs_JSON_emitClassMembers G) (classCombinators_none G)
       (declarations G)) _ _ _ Hdecl) as (_ & Hu1 & _ & Hi1).
  simpl in Hu1, Hi1, Hu6.
  rewrite ensureBlankLine_noop in Hblank3.
  2:{ simpl. rewrite last_app.
      destruct (supportCode_last (indentation st1) (deserializerFunctions st1))
        as [-> | ->]; [|by right].
      by apply ensureBlankLine_last in Hblank2. }
  injection Hblank3 as <-. simpl.
  exists declarationLines, st1, st6. split_and!; [done| |done| |].
  - revert Hdecl. unfold gatherSource.
    by destruct (forEachInterposing _ _ _); intros [= _ <-].
  - by rewrite Hu6, Hu1.
  - rewrite Hu6, Hi1. by rewrite <- app_assoc.
Qed.

(** ** Identifier characters *)

Lemma indexOf_ge_0 x l : (0 <=? indexOf x l)%Z = true <-> x ∈ l.
Proof.
  induction l as [|y l IH]; simpl.
  - split; [discriminate | intros H; inversion H].
  - destruct (String.eqb_spec y x) as [->|Hne].
    + split; [intros _; left | reflexivity].
    + rewrite elem_of_cons, <- IH.
      destruct (Z.ltb_spec (indexOf x l) 0) as [Hlt|Hge].
      * split; [discriminate | intros [Heq | H]; [congruence | lia]].
      * split; [intros _; right; lia | intros _; lia].
Qed.

Module IdentifierFacts.
Import Identifier.
Local Open Scope Z_scope.

Section Classification.
Variable getCategory : Z -> string.
Variable normalizeNFKC : Z -> list Z.

Local Abbreviation isNormalizedStartCharacter :=
  (Identifier.isNormalizedStartCharacter getCategory).
Local Abbreviation isStartCharacter :=
  (Identifier.isStartCharacter getCategory normalizeNFKC).
Local Abbreviation isNormalizedPartCharacter :=
  (Identifier.isNormalizedPartCharacter getCategory normalizeNFKC).
Local Abbreviation isPartCharacter :=
  (Identifier.isPartCharacter getCategory normalizeNFKC).
Local Abbreviation startTest := (Identifier.startTest getCategory).
Local Abbreviation continueTest := (Identifier.continueTest getCategory).
Local Abbreviation continueTestb := (Identifier.continueTestb getCategory).

Lemma isNormalizedStartCharacter_spec c :
  isNormalizedStartCharacter c = true <-> startTest c.
Proof.
  unfold Identifier.isNormalizedStartCharacter, Identifier.startTest.
  destruct (Z.eqb_spec c 0x5f) as [->|Hne].
  - split; [intros _; by left | done].
  - rewrite indexOf_ge_0. split; [by right | intros [?|?]; done].
Qed.

Lemma continueTestb_spec c : continueTestb c = true <-> continueTest c.
Proof.
  unfold Identifier.continueTestb, Identifier.continueTest.
  by rewrite orb_true_iff, isNormalizedStartCharacter_spec, indexOf_ge_0.
Qed.

Lemma everyUnit_Some test (p : Z -> bool) s :
  Forall (fun c => test c = Some (p c)) s ->
  everyUnit test s = Some (forallb p s).
Proof.
  induction 1 as [|c s Hc _ IH]; simpl; [done|].
  rewrite Hc. by destruct (p c).
Qed.

(** NFKC is closed under taking substrings: a unit of a normalized string
    is its own normalization. *)
Hypothesis normalize_stable :
  forall u c, c ∈ normalizeNFKC u -> normalizeNFKC c = [c].

Lemma isStartCharacter_stable fuel c :
  normalizeNFKC c = [c] ->
  isStartCharacter (S fuel) c = Some (isNormalizedStartCharacter c).
Proof.
  intros Hc. simpl. rewrite Hc.
  by destruct (Identifier.isNormalizedStartCharacter getCategory c).
Qed.

Lemma isNormalizedPartCharacter_stable fuel c :
  normalizeNFKC c = [c] ->
  isNormalizedPartCharacter (S (S fuel)) c = Some (continueTestb c).
Proof.
  intros Hc.
  change (isNormalizedPartCharacter (S (S fuel)) c)
    with (match isStartCharacter (S fuel) c with
          | None => None
          | Some true => Some true
          | Some false =>
              Some (0 <=? indexOf (getCategory c) partCategories)
          end).
  rewrite (isStartCharacter_stable _ _ Hc). unfold Identifier.continueTestb.
  by destruct (Identifier.isNormalizedStartCharacter getCategory c).
Qed.

Lemma isStartCharacter_value fuel u :
  isStartCharacter (S (S (S fuel))) u =
  Some match normalizeNFKC u with
       | [] => false
       | c0 :: rest =>
           isNormalizedStartCharacter c0 && forallb continueTestb rest
       end.
Proof.
  change (isStartCharacter (S (S (S fuel))) u)
    with (match normalizeNFKC u with
          | [] => Some false
          | c0 :: rest =>
              if negb (isNormalizedStartCharacter c0) then Some false
              else everyUnit (isNormalizedPartCharacter (S (S fuel))) rest
          end).
  pose proof (normalize_stable u) as Hst.
  destruct (normalizeNFKC u) as [|c0 rest]; [done|].
  destruct (Identifier.isNormalizedStartCharacter getCategory c0); simpl; [|done].
  apply everyUnit_Some, Forall_forall. intros c Hc.
  apply isNormalizedPartCharacter_stable, Hst. by right.
Qed.

Lemma isPartCharacter_value fuel u :
  isPartCharacter (S (S fuel)) u =
  Some (forallb continueTestb (normalizeNFKC u)).
Proof.
  unfold Identifier.isPartCharacter. apply everyUnit_Some, Forall_forall.
  intros c Hc. apply isNormalizedPartCharacter_stable.
  by apply (normalize_stable u).
Qed.

Lemma forallb_continueTest s :
  forallb continueTestb s = true <-> Forall continueTest s.
Proof.
  rewrite forallb_forall, Forall_forall.
  setoid_rewrite list_elem_of_In. by setoid_rewrite continueTestb_spec.
Qed.

(** C8. With the chain of calls given room (three levels are enough), both
    tests return.  A unit is accepted at the start exactly when its NFKC
    form is not empty, the first unit of the form is an underscore or a
    letter (Lu, Ll, Lt, Lm, Lo, Nl) and every later unit passes the
    continuation test; it is accepted in a continuation position exactly
    when every unit of the form passes that test, which admits Mn, Mc, Nd
    and Pc on top of what may start.  For a form of one unit these are the
    start test and the continuation test of that unit. *)
Theorem identifier_start_and_part (fuel : nat) (u : Z) :
  (3 <= fuel)%nat ->
  exists start part,
    isStartCharacter fuel u = Some start
    /\ isPartCharacter fuel u = Some part
    /\ (start = true <->
        exists c rest, normalizeNFKC u = c :: rest
                       /\ startTest c /\ Forall continueTest rest)
    /\ (part = true <-> Forall continueTest (normalizeNFKC u))
    /\ (forall c, normalizeNFKC u = [c] ->
                  (start = true <-> startTest c)
                  /\ (part = true <->
                      startTest c \/ getCategory c ∈ partCategories)).
Proof.
  intros Hfuel.
  destruct fuel as [|[|[|fuel]]]; [lia..|].
  eexists _, _. split; [apply isStartCharacter_value|].
  split; [apply (isPartCharacter_value (S fuel))|].
  split_and!.
  - destruct (normalizeNFKC u) as [|c rest].
    + split; [done|]. by intros (? & ? & ? & _).
    + rewrite andb_true_iff, isNormalizedStartCharacter_spec,
        forallb_continueTest.
      split; [intros []; eauto|]. by intros (? & ? & [= <- <-] & ? & ?).
  - apply forallb_continueTest.
  - intros c ->. simpl. rewrite !andb_true_r.
    split; [apply isNormalizedStartCharacter_spec|apply continueTestb_spec].
Qed.

End Classification.

Lemma sample_normalize_stable u c :
  c ∈ IdentifierSample.normalizeNFKC u -> IdentifierSample.normalizeNFKC c = [c].
Proof.
  unfold IdentifierSample.normalizeNFKC at 1.
  repeat case_match; rewrite ?elem_of_cons, elem_of_nil;
    intros Hc; destruct_or?; subst; try done.
  unfold IdentifierSample.normalizeNFKC.
  repeat (case_match; [lia|]). done.
Qed.

Lemma identifier_start_and_part_witness :
  exists start part,
    Identifier.isStartCharacter IdentifierSample.getCategory
      IdentifierSample.normalizeNFKC 3 0x33a7 = Some start
    /\ Identifier.isPartCharacter IdentifierSample.getCategory
         IdentifierSample.normalizeNFKC 3 0x33a7 = Some part
    /\ (start = true <->
        exists c rest, IdentifierSample.normalizeNFKC 0x33a7 = c :: rest
          /\ Identifier.startTest IdentifierSample.getCategory c
          /\ Forall (Identifier.continueTest IdentifierSample.getCategory) rest)
    /\ (part = true <->
        Forall (Identifier.continueTest IdentifierSample.getCategory)
               (IdentifierSample.normalizeNFKC 0x33a7))
    /\ (forall c, IdentifierSample.normalizeNFKC 0x33a7 = [c] ->
          (start = true <-> Identifier.startTest IdentifierSample.getCategory c)
          /\ (part = true <->
              Identifier.startTest IdentifierSample.getCategory c
              \/ IdentifierSample.getCategory c ∈ partCategories)).
Proof.
  apply (identifier_start_and_part IdentifierSample.getCategory
           IdentifierSample.normalizeNFKC sample_normalize_stable 3 0x33a7).
  lia.
Defined.

End IdentifierFacts.

(** ** The combinator bodies *)

(** C7. The body of the date-time combinator is a [def] line, three
    comment lines and one statement, the return of [datetime.strptime] on
    the one format [%Y-%m-%dT%H:%M:%S.%fZ]; it holds no [assert], and it is
    the only body that holds none: on text that does not match, the error
    is the one [strptime] raises. *)
Theorem date_time_combinator_body :
  splitLines "" (deserializerFunctionCodes df_date_time) =
    ["def from_datetime(x):";
     "    # This is not correct.  Python <3.7 doesn't support ISO date-time";
     "    # parsing in the standard library.  This is a kludge until we have";
     "    # that.";
     "    return datetime.strptime(x, " +:+ dq +:+ dateTimeFormat +:+ dq +:+ ")"]
  /\ dateTimeFormat = "%Y-%m-%dT%H:%M:%S.%fZ"
  /\ (forall df,
        includes "assert" (deserializerFunctionCodes df) =
        if decide (df = df_date_time) then false else true)
  /\ (forall df,
        includes "strptime" (deserializerFunctionCodes df) =
        if decide (df = df_date_time) then true else false).
Proof.
  split_and!; [by vm_compute|done| |]; intros []; by vm_compute.
Qed.

(** ** The string-type mapping *)



Lemma mapGet_mapUpdateInto {V} (m : list (string * V)) k f k' :
  mapGet (mapUpdateInto m k f) k' =
  if String.eqb k k' then Some (f (mapGet m k)) else mapGet m k'.
Proof.
  induction m as [|[k0 v] m IH]; simpl.
  - by destruct (String.eqb k k').
  - destruct (String.eqb_spec k0 k) as [->|Hne]; simpl.
    + by destruct (String.eqb k k').
    + rewrite IH. destruct (String.eqb_spec k0 k') as [->|]; [|done].
      by destruct (String.eqb_spec k k').
Qed.



(** ** Annotations of primitives and collections *)

Lemma hasImport_importInto module name i st :
  hasImport module name (setImports (importInto module name i) st).
Proof.
  unfold hasImport, importInto. simpl.
  rewrite mapGet_mapUpdateInto, String.eqb_refl. eexists. split; [done|].
  destruct (mapGet i module); [apply elem_of_setAdd; by left|left].
Qed.

Lemma hasImport_kept module name module' name' st :
  hasImport module name st ->
  hasImport module name (setImports (importInto module' name' (imports st)) st).
Proof.
  intros (names & Hget & Hin). unfold hasImport, importInto. simpl.
  rewrite mapGet_mapUpdateInto.
  destruct (String.eqb_spec module' module) as [->|]; [|eauto].
  rewrite Hget. eexists. split; [done|]. apply elem_of_setAdd. by right.
Qed.

Lemma pythonType_keeps_import G module name t :
  preserves (hasImport module name) (pythonType G t).
Proof.
  apply pythonType_preserves. intros module' name' st.
  apply hasImport_kept.
Qed.

(** C6. [any] is annotated [Any], imported from typing; null, bool, int,
    double and string are annotated [None], [bool], [int], [float] and
    [str] and leave the state alone.  An array imports [List] from typing,
    then renders its items, and is annotated [List[...]] around their
    annotation; a map does the same with [Dict] and [Dict[str, ...]]. *)
Theorem primitive_and_collection_annotations G st t :
  pythonType G AnyType st
    = Ok (SString "Any") (setImports (importInto "typing" "Any" (imports st)) st)
  /\ hasImport "typing" "Any"
       (setImports (importInto "typing" "Any" (imports st)) st)
  /\ pythonType G NullType st = Ok (SString "None") st
  /\ pythonType G BoolType st = Ok (SString "bool") st
  /\ pythonType G IntegerType st = Ok (SString "int") st
  /\ pythonType G DoubleType st = Ok (SString "float") st
  /\ pythonType G StringType st = Ok (SString "str") st
  /\ pythonType G (ArrayType t) st =
     match pythonType G t
             (setImports (importInto "typing" "List" (imports st)) st) with
     | Ok inner st' =>
         Ok (SArray [SString "List"; SString "["; inner; SString "]"]) st'
     | Panic message => Panic message
     | OutOfFuel => OutOfFuel
     end
  /\ match pythonType G (ArrayType t) st with
     | Ok annotation st' =>
         hasImport "typing" "List" st'
         /\ exists inner s s',
              pythonType G t s = Ok inner s'
              /\ flatten annotation = "List[" +:+ flatten inner +:+ "]"
     | _ => True
     end
  /\ pythonType G (MapType t) st =
     match pythonType G t
             (setImports (importInto "typing" "Dict" (imports st)) st) with
     | Ok inner st' =>
         Ok (SArray [SString "Dict"; SString "[str, "; inner; SString "]"]) st'
     | Panic message => Panic message
     | OutOfFuel => OutOfFuel
     end
  /\ match pythonType G (MapType t) st with
     | Ok annotation st' =>
         hasImport "typing" "Dict" st'
         /\ exists inner s s',
              pythonType G t s = Ok inner s'
              /\ flatten annotation = "Dict[str, " +:+ flatten inner +:+ "]"
     | _ => True
     end.
Proof.
  split_and!; try done.
  - apply hasImport_importInto.
  - rewrite pythonType_array. unfold bind. simpl.
    destruct (pythonType G t _) as [inner st'| |] eqn:Hrun; [|done..].
    split.
    + eapply pythonType_keeps_import; [|exact Hrun].
      apply hasImport_importInto.
    + by eexists _, _, _.
  - rewrite pythonType_map. unfold bind. simpl.
    destruct (pythonType G t _) as [inner st'| |] eqn:Hrun; [|done..].
    split.
    + eapply pythonType_keeps_import; [|exact Hrun].
      apply hasImport_importInto.
    + by eexists _, _, _.
Qed.

(** ** Unsupported kinds and union declarations *)

(** C3, as the code has it.  Rendering or synthesizing a type returns only
    if the type holds no transformed-string kind other than date-time, and
    otherwise panics with the message that names such a kind; neither skips
    the node.  A declaration that defines a union emits nothing and
    reports nothing; one that defines any other type than a class, an enum
    or a union panics with the message that names the kind. *)
Theorem unsupported_kinds_abort G R t st members :
  outcomeNamesKind t (pythonType G t st)
  /\ outcomeNamesKind t (deserializerFn G t st)
  /\ (forall kind,
        pythonType G (TransformedStringType kind) st =
        if String.eqb kind "date-time"
        then Ok (SString "datetime")
                (setImports (importInto "datetime" "datetime" (imports st)) st)
        else Panic ("Transformed type " +:+ kind +:+ " not supported"))
  /\ (forall kind,
        String.eqb kind "date-time" = false ->
        deserializerFn G (TransformedStringType kind) st =
        Panic ("Transformed type " +:+ kind +:+ " not supported"))
  /\ emitDeclaration G R
       {| decl_kind := define; decl_type := UnionType members |} st = Ok tt st
  /\ match t with
     | ClassType _ | EnumType _ | UnionType _ => True
     | _ => emitDeclaration G R {| decl_kind := define; decl_type := t |} st
            = Panic ("Cannot declare type " +:+ kindOf t)
     end.
Proof.
  split_and!.
  - apply pythonType_outcome.
  - apply deserializerFn_outcome.
  - intros kind. unfold pythonType. simpl.
    by destruct (String.eqb kind "date-time").
  - intros kind Hkind. simpl. by rewrite Hkind.
  - done.
  - by destruct t.
Qed.

Lemma unsupported_kinds_abort_witness :
  deserializerFn (sampleGraph []) (TransformedStringType "date") initialState
  = Panic "Transformed type date not supported".
Proof.
  apply (unsupported_kinds_abort (sampleGraph []) PythonRenderer
           AnyType initialState []).
  reflexivity.
Defined.

(** C3 as stated fails: a declaration that defines a union is passed over
    in silence. *)
Lemma union_declaration_is_skipped :
  emitDeclaration (sampleGraph []) (JSONPythonRenderer (sampleGraph []))
    {| decl_kind := define; decl_type := UnionType [IntegerType; StringType] |}
    initialState
  = Ok tt initialState.
Proof. reflexivity. Qed.

(** ** Unions *)

Lemma mapM_Forall2 {A B} (f : A -> M B) l : forall st ys st',
  mapM f l st = Ok ys st' ->
  Forall2 (fun x y => exists s s', f x s = Ok y s') l ys.
Proof.
  induction l as [|x l IH]; intros st ys st'; simpl.
  - intros [= <- _]. constructor.
  - intros (y & st1 & Hx & (ys' & st2 & Hl & [= <- _])%bind_Ok)%bind_Ok.
    constructor; eauto.
Qed.

Lemma sortedMembers_sorted G members :
  Sorted (fun a b => memberLeb G a b = true) members ->
  sortedMembers G members = members.
Proof.
  induction 1 as [|m l Hl IH Hhd]; [done|].
  simpl. fold (sortedMembers G l). rewrite IH.
  destruct Hhd as [|m' l' Hle]; [done|]. simpl. by rewrite Hle.
Qed.

(** C1 as stated fails: for the union whose members were found in the
    order string, integer, the annotation lists int before str and the
    deserializer tries str before int. *)
Lemma union_orders_differ :
  let G := sampleGraph [] in
  let members := [StringType; IntegerType] in
  nullableFromUnion members = None
  /\ sortedMembers G members = [IntegerType; StringType]
  /\ (exists annotation st,
        pythonType G (UnionType members) initialState = Ok annotation st
        /\ flatten annotation = "Union[int, str]")
  /\ (exists w st,
        deserializerFn G (UnionType members) initialState = Ok w st
        /\ flatten (source w) = "lambda x: from_union([from_str, from_int], x)").
Proof.
  split_and!; [done..| |]; eexists _, _; split; by vm_compute.
Qed.

(** C1, as the code has it.  For a union that is not null-and-one-member,
    the annotation lists the annotations of the members in their sorted
    order, and the deserializer lists the deserializers of the members in
    the order the union holds them.  The two orders hold the same members;
    they are the same order when the union holds its members sorted. *)
Theorem union_member_orders G members st :
  nullableFromUnion members = None ->
  (forall annotation st',
     pythonType G (UnionType members) st = Ok annotation st' ->
     exists memberTypes,
       annotation = SArray [SString "Union"; SString "[";
                            SArray (arrayIntercalate (SString ", ") memberTypes);
                            SString "]"]
       /\ Forall2 (fun m a => exists s s', pythonType G m s = Ok a s')
                  (sortedMembers G members) memberTypes)
  /\ (forall w st',
        deserializerFn G (UnionType members) st = Ok w st' ->
        exists deserializers,
          w = multiWord (SString "")
                [SString "lambda x: "; SArray [SString "from_"; SString "union"];
                 SString "(["; 
                 SArray (arrayIntercalate (SString ", ") deserializers);
                 SString "], x)"]
          /\ Forall2 (fun m d => exists s s' w',
                        deserializerFn G m s = Ok w' s' /\ d = source w')
                     members deserializers)
  /\ sortedMembers G members ≡ₚ members
  /\ (Sorted (fun a b => memberLeb G a b = true) members ->
      sortedMembers G members = members).
Proof.
  intros Hgeneral. split_and!.
  - intros annotation st'. rewrite pythonType_union_general by done.
    intros (memberTypes & st1 & Hmembers & [= <- _])%bind_Ok.
    exists memberTypes. split; [done|]. by eapply mapM_Forall2.
  - intros w st'. simpl.
    intros (deserializers & st1 & Hmembers & [= <- _])%bind_Ok.
    exists deserializers. split; [done|].
    apply mapM_Forall2 in Hmembers.
    eapply Forall2_impl; [exact Hmembers|]. simpl.
    intros m d (s & s' & (w' & s1 & Hw & [= <- _])%bind_Ok). eauto.
  - apply sortedMembers_perm.
  - apply sortedMembers_sorted.
Qed.

Lemma union_member_orders_witness :
  sortedMembers (sampleGraph []) [StringType; IntegerType]
  ≡ₚ [StringType; IntegerType].
Proof.
  apply (union_member_orders (sampleGraph []) [StringType; IntegerType]
           initialState).
  reflexivity.
Defined.

(** C2 as stated fails: the deserializer of the union of null and integer
    is built with [from_union], and the union combinator joins the used
    set. *)
Lemma nullable_union_uses_from_union :
  let members := [NullType; IntegerType] in
  nullableFromUnion members = Some IntegerType
  /\ exists w st,
       deserializerFn (sampleGraph []) (UnionType members) initialState
       = Ok w st
       /\ flatten (source w) = "lambda x: from_union([from_none, from_int], x)"
       /\ deserializerFunctions st = [df_none; df_int; df_union].
Proof.
  split; [done|]. eexists _, _. split_and!; by vm_compute.
Qed.

(** C2, as the code has it.  For a union of null and one member [T] the
    annotation is [Optional[...]] around the annotation of [T], with
    [Optional] imported from typing.  The deserializer is the general one:
    [from_union] over the deserializers of all the members, null among
    them, in the order the union holds them; the union combinator is
    used. *)
Theorem nullable_union_rendering G members t st :
  nullableFromUnion members = Some t ->
  pythonType G (UnionType members) st =
    match pythonType G t
            (setImports (importInto "typing" "Optional" (imports st)) st) with
    | Ok inner st' =>
        Ok (SArray [SString "Optional"; SString "["; inner; SString "]"]) st'
    | Panic message => Panic message
    | OutOfFuel => OutOfFuel
    end
  /\ (forall w st',
        deserializerFn G (UnionType members) st = Ok w st' ->
        df_union ∈ deserializerFunctions st'
        /\ exists deserializers,
             w = multiWord (SString "")
                   [SString "lambda x: ";
                    SArray [SString "from_"; SString "union"];
                    SString "([";
                    SArray (arrayIntercalate (SString ", ") deserializers);
                    SString "], x)"]
             /\ Forall2 (fun m d => exists s s' w',
                           deserializerFn G m s = Ok w' s' /\ d = source w')
                        members deserializers).
Proof.
  intros Hnullable. split.
  - by rewrite (pythonType_union_nullable _ _ t).
  - intros w st' Hrun. split.
    + apply deserializerFn_state in Hrun as ->. simpl.
      rewrite addAll_app. apply elem_of_addAll. left. left.
    + revert Hrun. simpl.
      intros (deserializers & st1 & Hmembers & [= <- _])%bind_Ok.
      exists deserializers. split; [done|].
      apply mapM_Forall2 in Hmembers.
      eapply Forall2_impl; [exact Hmembers|]. simpl.
      intros m d (s & s' & (w' & s1 & Hw & [= <- _])%bind_Ok). eauto.
Qed.

Lemma nullable_union_rendering_witness :
  pythonType (sampleGraph []) (UnionType [NullType; IntegerType]) initialState
  = Ok (SArray [SString "Optional"; SString "["; SString "int"; SString "]"])
       (setImports [("typing", ["Optional"])] initialState).
Proof.
  apply (nullable_union_rendering (sampleGraph []) [NullType; IntegerType]
           IntegerType initialState).
  reflexivity.
Defined.

(** ** The used combinators and the support code *)

(** C5 as stated fails on the order: the bodies come in the order the
    combinators were first referred to, so two graphs can have the same two
    bodies in opposite orders, and no order fixed beforehand fits both. *)
Lemma support_code_order_varies :
  definedCombinators
    (renderJSON (sampleGraph [property "name" StringType;
                              property "age" IntegerType]))
  = ["def from_str(x):"; "def from_int(x):"]
  /\ definedCombinators
       (renderJSON (sampleGraph [property "age" IntegerType;
                                 property "name" StringType]))
     = ["def from_int(x):"; "def from_str(x):"]
  /\ ~ exists rank, fixedSupportOrder rank.
Proof.
  split_and!; [by vm_compute..|].
  intros [rank Hrank].
  assert (exists st,
            renderJSON (sampleGraph [property "name" StringType;
                                     property "age" IntegerType]) = Ok tt st
            /\ deserializerFunctions st = [df_str; df_int])
    as (st1 & Hrun1 & Hused1) by (eexists; split; by vm_compute).
  assert (exists st,
            renderJSON (sampleGraph [property "age" IntegerType;
                                     property "name" StringType]) = Ok tt st
            /\ deserializerFunctions st = [df_int; df_str])
    as (st2 & Hrun2 & Hused2) by (eexists; split; by vm_compute).
  pose proof (Hrank _ _ 0%nat 1%nat df_str df_int Hrun1) as H1.
  pose proof (Hrank _ _ 0%nat 1%nat df_int df_str Hrun2) as H2.
  rewrite Hused1 in H1. rewrite Hused2 in H2.
  specialize (H1 eq_refl eq_refl). specialize (H2 eq_refl eq_refl). lia.
Qed.

(** C5, as the code has it.  [from] adds a combinator to the used set, at
    the end if it is new and not at all if it is there.  After a run that
    ends, the used set holds exactly the combinators the deserializers of
    the declared classes' properties referred to, each once, in the order
    of their first reference.  The artifact is the head (comments and
    imports), then the body of each used combinator once, in that order,
    then the declarations. *)
Theorem support_code_once_before_declarations G st df :
  renderJSON G = Ok tt st ->
  from df st
    = Ok (SArray [SString "from_"; SString (dfName df)])
         (setDeserializerFunctions (setAdd df (deserializerFunctions st)) st)
  /\ deserializerFunctions st = addAll (graphCombinators G) []
  /\ NoDup (deserializerFunctions st)
  /\ (df ∈ deserializerFunctions st <-> df ∈ graphCombinators G)
  /\ exists header declarationLines st1 st6,
       gatherSource
         (forEachInterposing (emitDeclaration G (JSONPythonRenderer G))
                             (declarations G)) initialState
         = Ok declarationLines st1
       /\ emitted st1 = []
       /\ emitHeader G st1 = Ok tt st6
       /\ header = emitted st6
       /\ emitted st =
          header ++ supportCode 0 (deserializerFunctions st)
                 ++ declarationLines.
Proof.
  intros (declarationLines & st1 & st6 & Hdecl & Hempty & Hheader & Hused
          & Hlines)%renderJSON_structure.
  split_and!; [done|done| | |].
  - rewrite Hused. apply NoDup_addAll, NoDup_nil_2.
  - rewrite Hused, elem_of_addAll. split; [|by left].
    by intros [|?%elem_of_nil].
  - by exists (emitted st6), declarationLines, st1, st6.
Qed.

Lemma support_code_once_before_declarations_witness :
  match renderJSON (sampleGraph [property "name" StringType;
                                 property "tags" (ArrayType StringType)]) with
  | Ok _ st => deserializerFunctions st = [df_str; df_list]
  | _ => False
  end.
Proof.
  destruct (renderJSON _) as [[] st| |] eqn:Hrun;
    [|by vm_compute in Hrun..].
  pose proof (support_code_once_before_declarations _ st df_str Hrun)
    as (_ & Hused & _).
  exact Hused.
Defined.

(** ** [any] *)








(** ** References to named types *)

Lemma namedType_declared G t st :
  t ∈ declaredTypes st ->
  pythonType G (ClassType t) st = Ok (SName (nameForNamedType G t)) st.
Proof.
  intros Hin. change (pythonType G (ClassType t)) with (namedType G t).
  unfold namedType. by case_decide.
Qed.

Lemma setEmitted_setEmitted l l' st :
  setEmitted l (setEmitted l' st) = setEmitted l st.
Proof. done. Qed.

Lemma forEach_emitLine_map {A} (g : A -> list Sourcelike) l : forall st,
  forEach (fun x => emitLine (g x)) l st =
  Ok tt (setEmitted
           (emitted st ++ map (fun x => SourceLine (indentation st) (g x)) l)
           st).
Proof.
  induction l as [|x l IH]; intros st; simpl.
  - by rewrite app_nil_r, setEmitted_id.
  - unfold bind, emitLine. rewrite IH. simpl. by rewrite <- app_assoc.
Qed.

Lemma emitDescription_run description st :
  emitDescription description st =
  Ok tt (setEmitted
           (emitted st ++ descriptionLines (indentation st) description) st).
Proof.
  destruct description as [[|first [|second others]]|].
  - done.
  - done.
  - unfold emitDescription, emitDescriptionBlock, emitCommentLines,
      emitOptionalLine, bind, ret, emitLine.
    cbv beta iota.
    rewrite (forEach_emitLine_map (fun l => [SString ""; SString l])).
    cbv beta iota. unfold setEmitted. cbn [emitted indentation imports
      declaredTypes deserializerFunctions]. do 2 f_equal.
    unfold descriptionLines. rewrite <- !app_assoc. done.
  - simpl. by rewrite app_nil_r, setEmitted_id.
Qed.

Lemma forEach_returns {A} (f : A -> M unit) l :
  (forall x s, exists s', f x s = Ok tt s') ->
  forall s, exists s', forEach f l s = Ok tt s'.
Proof.
  intros Hf. induction l as [|x l IH]; intros s; simpl; [by eexists|].
  unfold bind. destruct (Hf x s) as [s1 ->]. apply IH.
Qed.

Lemma emitEnum_returns G t st : exists st', emitEnum G t st = Ok tt st'.
Proof.
  unfold emitEnum, declareType, bind. rewrite emitDescription_run. simpl.
  unfold emitBlock, bind, emitLine, indent. simpl.
  match goal with |- context [forEach ?f ?l ?s0] =>
    assert (forall x s, exists s', f x s = Ok tt s') as Hf
      by (intros [name jsonName] s; by eexists);
    destruct (forEach_returns f l Hf s0) as [s' ->] end.
  by eexists.
Qed.

Lemma namedType_declared_enum G t st :
  t ∈ declaredTypes st ->
  pythonType G (EnumType t) st = Ok (SName (nameForNamedType G t)) st.
Proof.
  intros Hin. change (pythonType G (EnumType t)) with (namedType G t).
  unfold namedType. by case_decide.
Qed.

Lemma renderer_members_run G R :
  R = PythonRenderer \/ R = JSONPythonRenderer G ->
  exists U,
    (forall c, runs (emitClassMembers R c) ∅ (U c))
    /\ (forall c, getProperties G c = [] -> U c = []).
Proof.
  intros [-> | ->].
  - exists (fun _ => []). split; [intros; apply runs_ret|done].
  - exists (classCombinators G).
    split; [apply runs_JSON_emitClassMembers|apply classCombinators_none].
Qed.

(** C4. The annotation of a reference to a class or an enum is the bare
    name if the type is among the declared ones and the quoted name if it
    is not.  A type joins the declared ones when [declareType] is through
    with its body: a property of a class typed as the class itself, met in
    the body of a class not declared before, is annotated with the quoted
    name; once the class is emitted, a reference to it is the bare name,
    and stays so through the declarations that follow.  The same holds of
    an enum: [emitEnum] returns, the enum is then the one type that has
    joined the declared ones, and from there on a reference to it is the
    bare name. *)
Theorem named_type_reference G R t st :
  R = PythonRenderer \/ R = JSONPythonRenderer G ->
  pythonType G (ClassType t) st
    = Ok (if decide (t ∈ declaredTypes st) then SName (nameForNamedType G t)
          else quoted (nameForNamedType G t)) st
  /\ pythonType G (EnumType t) st
     = Ok (if decide (t ∈ declaredTypes st) then SName (nameForNamedType G t)
           else quoted (nameForNamedType G t)) st
  /\ (forall st',
       emitClass G R t st = Ok tt st' ->
       t ∈ declaredTypes st'
       /\ pythonType G (ClassType t) st' = Ok (SName (nameForNamedType G t)) st'
       /\ (forall decls st'',
             forEachInterposing (emitDeclaration G R) decls st' = Ok tt st'' ->
             pythonType G (ClassType t) st''
             = Ok (SName (nameForNamedType G t)) st'')
       /\ (forall cp,
             t ∉ declaredTypes st ->
             cp ∈ getProperties G t -> cp_type cp = ClassType t ->
             SourceLine (S (indentation st))
                        [SName (cp_name cp); SString ": ";
                         quoted (nameForNamedType G t)]
               ∈ emitted st'))
  /\ (forall st',
        emitClass G R t st = Ok tt st' ->
        declaredTypes st' = {[t]} ∪ declaredTypes st)
  /\ (exists st',
        emitEnum G t st = Ok tt st'
        /\ emitDeclaration G R {| decl_kind := define; decl_type := EnumType t |}
             st = Ok tt st'
        /\ declaredTypes st' = {[t]} ∪ declaredTypes st
        /\ pythonType G (EnumType t) st' = Ok (SName (nameForNamedType G t)) st'
        /\ (forall decls st'',
              forEachInterposing (emitDeclaration G R) decls st' = Ok tt st'' ->
              pythonType G (EnumType t) st''
              = Ok (SName (nameForNamedType G t)) st'')).
Proof.
  intros (U & Hrun & Hnone)%renderer_members_run.
  split_and!.
  - change (pythonType G (ClassType t)) with (namedType G t).
    unfold namedType. by case_decide.
  - change (pythonType G (EnumType t)) with (namedType G t).
    unfold namedType. by case_decide.
  - intros st' Hclass.
    assert (t ∈ declaredTypes st') as Hdeclared.
    { eapply evolves_declared; [by eapply (runs_emitClass G R U)|].
      left. set_solver. }
    split_and!; [done|by apply namedType_declared| |].
    + intros decls st'' Hdecls. apply namedType_declared.
      eapply evolves_declared; [by eapply (runs_declarations G R U)|].
      by right.
    + intros cp Hnew Hcp Htype.
      by eapply (emitClass_self_reference G R U).
  - intros st' Hclass.
    by destruct (runs_emitClass G R U Hrun Hnone t _ _ _ Hclass) as (Hd & _).
  - destruct (emitEnum_returns G t st) as [st' Henum]. exists st'.
    destruct (runs_emitEnum G t _ _ _ Henum) as (Hd & _).
    assert (t ∈ declaredTypes st') as Hdeclared by (rewrite Hd; set_solver).
    split_and!; [done|done|done|by apply namedType_declared_enum|].
    intros decls st'' Hdecls. apply namedType_declared_enum.
    eapply evolves_declared; [by eapply (runs_declarations G R U)|].
    by right.
Qed.

Lemma named_type_reference_witness :
  let G := sampleGraph [property "next" (ClassType 1%positive)] in
  match emitClass G (JSONPythonRenderer G) 1%positive initialState with
  | Ok _ st' =>
      SourceLine 1 [SName "next"; SString ": "; quoted "Node"] ∈ emitted st'
      /\ pythonType G (ClassType 1%positive) st' = Ok (SName "Node") st'
  | _ => False
  end.
Proof.
  intros G.
  destruct (emitClass G _ 1%positive initialState) as [[] st'| |] eqn:Hrun;
    [|by vm_compute in Hrun..].
  pose proof (named_type_reference G (JSONPythonRenderer G) 1%positive
                initialState (or_intror eq_refl)) as (_ & _ & Hclass & _).
  destruct (Hclass st' Hrun) as (_ & Hbare & _ & Hself).
  split; [|exact Hbare].
  apply (Hself (property "next" (ClassType 1%positive)));
    [apply not_elem_of_empty|left|done].
Defined.

(** The text of a class with a property of its own type. *)
Example self_referential_class :
  resultLines (renderJSON (sampleGraph [property "next" (ClassType 1%positive)]))
  = ["# Only Python >=3.6 right now, and no (de)serializers yet.";
     "# More features coming soon!";
     "";
     "class Node:";
     "    next: 'Node'";
     "";
     "    def __init__(self, obj):";
     "        assert isinstance(obj, dict)";
     "        self.next = Node(obj[" +:+ dq +:+ "next" +:+ dq +:+ "])"].
Proof. by vm_compute. Qed.

(** ** Worked examples *)

(** A then B: the reference of A to B is quoted, B not being declared yet;
    the reference of B to A is bare. *)
Example mutually_referential_classes :
  resultLines (renderJSON mutualGraph)
  = ["class A:";
     "    b: 'B'";
     "";
     "    def __init__(self, obj):";
     "        assert isinstance(obj, dict)";
     "        self.b = B(obj[" +:+ dq +:+ "b" +:+ dq +:+ "])";
     "";
     "class B:";
     "    a: A";
     "";
     "    def __init__(self, obj):";
     "        assert isinstance(obj, dict)";
     "        self.a = A(obj[" +:+ dq +:+ "a" +:+ dq +:+ "])"].
Proof. by vm_compute. Qed.

(** An optional integer: [Optional[int]] in the annotation, [from_union]
    in the constructor. *)
Example optional_property :
  filter (fun l => String.prefix "    " l = true)
    (resultLines
       (renderJSON (sampleGraph [property "age"
                                   (UnionType [IntegerType; NullType])])))
  = ["    assert isinstance(x, int)"; "    return x";
     "    assert x is None"; "    return x";
     "    for f in fs:"; "        try:"; "            return f(x)";
     "        except AssertionError:"; "            pass"; "    assert False";
     "    age: Optional[int]";
     "    def __init__(self, obj):";
     "        assert isinstance(obj, dict)";
     "        self.age = (lambda x: from_union([from_int, from_none], x))(obj["
       +:+ dq +:+ "age" +:+ dq +:+ "])"].
Proof. by vm_compute. Qed.

(** Superscript two normalizes to the digit two: it may continue an
    identifier and may not start one.  The square m/s sign normalizes to
    m, division slash, s: the slash fails the continuation test.  The fi
    ligature normalizes to two letters; with a chain of two calls only, the
    test of its second letter is cut short. *)
Example identifier_samples :
  Identifier.isStartCharacter IdentifierSample.getCategory
    IdentifierSample.normalizeNFKC 3 0xb2 = Some false
  /\ Identifier.isPartCharacter IdentifierSample.getCategory
       IdentifierSample.normalizeNFKC 3 0xb2 = Some true
  /\ Identifier.isStartCharacter IdentifierSample.getCategory
       IdentifierSample.normalizeNFKC 3 0x33a7 = Some false
  /\ Identifier.isStartCharacter IdentifierSample.getCategory
       IdentifierSample.normalizeNFKC 3 0xfb01 = Some true
  /\ Identifier.isStartCharacter IdentifierSample.getCategory
       IdentifierSample.normalizeNFKC 2 0xfb01 = None.
Proof. by vm_compute. Qed.

(** * Further properties *)

(** ** The import registry *)

Lemma setAdd_idemp {A} `{EqDecision A} (x : A) s :
  setAdd x (setAdd x s) = setAdd x s.
Proof.
  unfold setAdd at 1. case_decide as Hin; [done|].
  exfalso. apply Hin, elem_of_setAdd. by left.
Qed.

Lemma importInto_idemp module name i :
  importInto module name (importInto module name i) = importInto module name i.
Proof.
  unfold importInto. induction i as [|[k v] i IH]; simpl.
  - rewrite String.eqb_refl. unfold setAdd. case_decide as Hin; [done|].
    exfalso. apply Hin. left.
  - destruct (String.eqb_spec k module) as [->|Hne]; simpl.
    + by rewrite String.eqb_refl, setAdd_idemp.
    + destruct (String.eqb_spec k module); [done|]. by rewrite IH.
Qed.

Lemma hasImport_importInto_iff module name module' name' st :
  hasImport module' name'
    (setImports (importInto module name (imports st)) st)
  <-> (module' = module /\ name' = name) \/ hasImport module' name' st.
Proof.
  unfold hasImport, importInto. simpl. rewrite mapGet_mapUpdateInto.
  destruct (String.eqb_spec module module') as [->|Hne].
  - destruct (mapGet (imports st) module') as [s|] eqn:Hget.
    + split.
      * intros (names & [= <-] & [->|Hin]%elem_of_setAdd); [by left|].
        right. eauto.
      * intros [[_ ->]|(names & [= <-] & Hin)];
          (eexists; split; [done|]; apply elem_of_setAdd); auto.
    + split.
      * intros (names & [= <-] & ->%list_elem_of_singleton). by left.
      * intros [[_ ->]|(names & [=] & _)]. eexists. split; [done|left].
  - split; [by right|]. by intros [[-> _]|].
Qed.

(** X1. [withImport] returns the name and adds that one import: afterwards
    a name is imported from a module exactly if it is the one just asked
    for or was imported before.  Asking twice is asking once. *)
Theorem withImport_adds_one module name module' name' st :
  exists st',
    withImport module name st = Ok (SString name) st'
    /\ (hasImport module' name' st' <->
        (module' = module /\ name' = name) \/ hasImport module' name' st)
    /\ withImport module name st' = Ok (SString name) st'.
Proof.
  eexists. split; [done|]. split.
  - apply hasImport_importInto_iff.
  - unfold withImport. simpl. by rewrite importInto_idemp.
Qed.

Lemma mapUpdateInto_keys {V} (m : list (string * V)) k f :
  (mapUpdateInto m k f).*1 = if decide (k ∈ m.*1) then m.*1 else m.*1 ++ [k].
Proof.
  induction m as [|[k0 v] m IH]; [done|].
  cbn [mapUpdateInto]. rewrite fmap_cons. cbn [fst].
  destruct (String.eqb_spec k0 k) as [->|Hne]; rewrite fmap_cons; cbn [fst].
  - rewrite decide_True by left. done.
  - rewrite IH. destruct (decide (k ∈ m.*1)) as [Hin|Hin].
    + rewrite decide_True by (by right). done.
    + rewrite decide_False; [done|]. by intros [?|?]%elem_of_cons.
Qed.

Lemma elem_of_mapUpdateInto {V} (m : list (string * V)) k f k' v' :
  (k', v') ∈ mapUpdateInto m k f ->
  (k', v') ∈ m
  \/ (k' = k /\ (v' = f None \/ exists v, (k, v) ∈ m /\ v' = f (Some v))).
Proof.
  induction m as [|[k0 v] m IH]; simpl.
  - intros [= -> ->]%list_elem_of_singleton. right. auto.
  - destruct (String.eqb_spec k0 k) as [->|Hne].
    + intros [[= -> ->]|Hin]%elem_of_cons.
      * right. split; [done|]. right. exists v. split; [left|done].
      * left. by right.
    + intros [[= -> ->]|Hin]%elem_of_cons; [left; left|].
      destruct (IH Hin) as [?|(-> & [->|(v0 & Hv0 & ->)])].
      * left. by right.
      * right. auto.
      * right. split; [done|]. right. exists v0. split; [by right|done].
Qed.

Lemma importInto_wellFormed module name i :
  allowedImport module name ->
  importsWellFormed i -> importsWellFormed (importInto module name i).
Proof.
  intros Hallowed [Hkeys Hnames]. unfold importInto. split.
  - rewrite mapUpdateInto_keys. case_decide as Hin; [done|].
    apply NoDup_app. split_and!; [done| |apply NoDup_singleton].
    by intros k Hk ->%list_elem_of_singleton.
  - intros module' names
      [Hin|(-> & [->|(s & Hs & ->)])]%elem_of_mapUpdateInto; [by apply Hnames| |].
    + split_and!; [done|apply NoDup_singleton|].
      by intros name' ->%list_elem_of_singleton.
    + destruct (Hnames _ _ Hs) as (Hne & Hnd & Hall). split_and!.
      * intros Hnil. assert (name ∈ setAdd name s) as Hname
          by (apply elem_of_setAdd; by left).
        rewrite Hnil in Hname. by apply elem_of_nil in Hname.
      * by apply NoDup_setAdd.
      * intros name' [->|?]%elem_of_setAdd; auto.
Qed.

Section ImportsInvariant.
Variable G : TypeGraph.
Variable I : RendererState -> Prop.
Hypothesis I_imports_only : ImportsOnly I.
Hypothesis I_allowed :
  forall module name st,
    allowedImport module name ->
    I st -> I (setImports (importInto module name (imports st)) st).

Lemma imports_only_append : AppendClosed I.
Proof. intros lines st. by apply I_imports_only. Qed.

Lemma withImport_allowed module name :
  allowedImport module name -> preserves I (withImport module name).
Proof. intros Hallowed st a st' Hst [= _ <-]. by apply I_allowed. Qed.

Lemma typing_allowed name :
  name ∈ ["Any"; "List"; "Dict"; "Optional"; "Union"] ->
  preserves I (withTyping name).
Proof. intros Hin. apply withImport_allowed. left. done. Qed.

Lemma pythonType_allowed t : preserves I (pythonType G t).
Proof.
  induction t as [t Hleaf|items IH|values IH|members IH] using IRType_ind'.
  - destruct t; try done;
      try apply preserves_ret; try apply namedType_preserves.
    + apply typing_allowed. set_solver.
    + unfold pythonType. simpl.
      destruct (String.eqb kind "date-time"); [|apply hoare_panic].
      apply withImport_allowed. right. by right.
  - eapply hoare_ext; [apply pythonType_array|].
    apply preserves_bind; [apply typing_allowed; set_solver|]. intros ?.
    apply preserves_bind; [done|]. intros ?. apply preserves_ret.
  - eapply hoare_ext; [apply pythonType_map|].
    apply preserves_bind; [apply typing_allowed; set_solver|]. intros ?.
    apply preserves_bind; [done|]. intros ?. apply preserves_ret.
  - rewrite Forall_forall in IH.
    destruct (nullableFromUnion members) as [t|] eqn:Hnull.
    + eapply hoare_ext; [intros; by apply pythonType_union_nullable|].
      apply nullableFromUnion_Some in Hnull as (Hin & _).
      apply preserves_bind; [apply typing_allowed; set_solver|]. intros ?.
      apply preserves_bind; [by apply IH|]. intros ?. apply preserves_ret.
    + eapply hoare_ext; [intros; by apply pythonType_union_general|].
      apply preserves_bind.
      * apply preserves_mapM. intros m Hin%elem_of_sortedMembers. by apply IH.
      * intros ?. apply preserves_bind; [apply typing_allowed; set_solver|].
        intros ?. apply preserves_ret.
Qed.

Lemma deserializer_imports value t : preserves I (deserializer G value t).
Proof.
  intros st a st' Hst (w & st1 & ->%deserializerFn_state & [= _ <-])%bind_Ok.
  by eapply I_imports_only; [|exact Hst].
Qed.

Lemma indent_imports f : preserves I f -> preserves I (indent f).
Proof.
  intros Hf st a st' Hst. unfold indent.
  destruct (f _) as [? st1| |] eqn:Hrun; intros [= _ <-].
  eapply (I_imports_only st1); [done|].
  eapply Hf; [|exact Hrun]. by eapply I_imports_only; [|exact Hst].
Qed.

Lemma gatherSource_imports f : preserves I f -> preserves I (gatherSource f).
Proof.
  intros Hf st a st' Hst. unfold gatherSource.
  destruct (f _) as [? st1| |] eqn:Hrun; intros [= _ <-].
  eapply (I_imports_only st1); [done|].
  eapply Hf; [|exact Hrun]. by eapply I_imports_only; [|exact Hst].
Qed.

Lemma emitBlock_imports line f : preserves I f -> preserves I (emitBlock line f).
Proof.
  intros Hf. apply preserves_bind.
  - apply emitLine_preserves, imports_only_append.
  - intros _. by apply indent_imports.
Qed.

Lemma declareType_imports t emitter :
  preserves I emitter -> preserves I (declareType G t emitter).
Proof.
  intros He. unfold declareType.
  apply preserves_bind;
    [apply emitDescription_preserves, imports_only_append|]. intros _.
  apply preserves_bind.
  { destruct t; try apply hoare_panic; [apply preserves_ret|].
    apply preserves_bind; [|intros; apply preserves_ret].
    apply withImport_allowed. right. by left. }
  intros line. apply preserves_bind; [by apply emitBlock_imports|]. intros _.
  intros st a st' Hst. unfold addDeclaredType.
  destruct t; intros [= _ <-]; try done;
    by eapply I_imports_only; [|exact Hst].
Qed.

Lemma JSON_emitClassMembers_imports t :
  preserves I (JSON_emitClassMembers G t).
Proof.
  apply emitBlock_imports. apply preserves_bind;
    [apply emitLine_preserves, imports_only_append|]. intros _.
  apply preserves_forEach. intros cp _.
  apply preserves_bind; [apply deserializer_imports|].
  intros d. apply emitLine_preserves, imports_only_append.
Qed.

Lemma emitDeclaration_imports decl :
  preserves I (emitDeclaration G (JSONPythonRenderer G) decl).
Proof.
  unfold emitDeclaration. destruct (decl_kind decl); [apply preserves_ret|].
  destruct (decl_type decl);
    try apply hoare_panic; try apply preserves_ret.
  - apply declareType_imports. destruct (getProperties G ref) as [|cp l];
      [apply emitLine_preserves, imports_only_append|].
    apply preserves_bind.
    { apply preserves_forEach. intros cp' _.
      apply preserves_bind;
        [apply emitDescription_preserves, imports_only_append|]. intros _.
      apply preserves_bind; [apply pythonType_allowed|]. intros ?.
      apply emitLine_preserves, imports_only_append. }
    intros _. apply preserves_bind;
      [apply ensureBlankLine_preserves, imports_only_append|].
    intros _. apply JSON_emitClassMembers_imports.
  - apply declareType_imports. apply preserves_forEach.
    intros [name jsonName] _. apply emitLine_preserves, imports_only_append.
Qed.

Lemma renderJSON_imports st :
  I initialState -> renderJSON G = Ok tt st -> I st.
Proof.
  intros Hinit. unfold renderJSON. revert st.
  assert (preserves I (emitSourceStructure G (JSONPythonRenderer G))) as Hp;
    [|intros st; by apply Hp].
  pose proof imports_only_append as HA.
  unfold emitSourceStructure.
  apply preserves_bind.
  { apply gatherSource_imports.
    destruct (declarations G) as [|decl decls]; [apply preserves_ret|].
    apply preserves_bind; [apply emitDeclaration_imports|]. intros _.
    apply preserves_forEach. intros d _.
    apply preserves_bind; [by apply ensureBlankLine_preserves|].
    intros _. apply emitDeclaration_imports. }
  intros declarationLines. apply preserves_bind.
  { apply gatherSource_imports. intros st a st' Hst. simpl.
    rewrite JSON_emitSupportCode_run. intros [= _ <-].
    by eapply I_imports_only; [|exact Hst]. }
  intros supportLines. apply preserves_bind.
  { destruct (leadingComments G); by apply emitCommentLines_preserves. }
  intros _. apply preserves_bind; [by apply ensureBlankLine_preserves|].
  intros _. apply preserves_bind; [by apply emitImports_preserves|].
  intros _. apply preserves_bind; [by apply ensureBlankLine_preserves|].
  intros _. apply preserves_bind.
  { intros st a st' Hst [= _ <-]. by apply HA. }
  intros _. apply preserves_bind; [by apply ensureBlankLine_preserves|].
  intros _ st a st' Hst [= _ <-]. by apply HA.
Qed.

End ImportsInvariant.

(** X2. The registry of an artifact lists no module twice and no name twice
    under a module, and holds nothing but [Any], [List], [Dict], [Optional]
    and [Union] from typing, [Enum] from enum and [datetime] from
    datetime. *)
Theorem artifact_imports_well_formed G st :
  renderJSON G = Ok tt st -> importsWellFormed (imports st).
Proof.
  apply (renderJSON_imports G (fun s => importsWellFormed (imports s))).
  - intros s s' Heq. by rewrite Heq.
  - intros module name s Hallowed. by apply importInto_wellFormed.
  - split; [constructor|]. by intros ? ? ?%elem_of_nil.
Qed.

Lemma artifact_imports_well_formed_witness :
  importsWellFormed
    [("typing", ["Optional"; "List"; "Any"]); ("enum", ["Enum"])].
Proof.
  set (G := {| nameForNamedType := fun _ => "Node";
               getProperties := fun _ =>
                 [property "a" (UnionType [NullType; ArrayType AnyType])];
               enumCases := fun _ => [];
               descriptionForType := fun _ => None;
               descriptionForClassProperty := fun _ _ => None;
               declarations :=
                 [{| decl_kind := define; decl_type := ClassType 1%positive |};
                  {| decl_kind := define; decl_type := EnumType 2%positive |}];
               leadingComments := None;
               stringEscape := fun s => s |}).
  destruct (renderJSON G) as [[] st| |] eqn:Hrun;
    [|by vm_compute in Hrun..].
  pose proof (artifact_imports_well_formed G st Hrun) as Hwf.
  assert (imports st
          = [("typing", ["Optional"; "List"; "Any"]); ("enum", ["Enum"])])
    as <-; [|exact Hwf].
  vm_compute in Hrun. by injection Hrun as <-.
Defined.

(** ** Start characters and part characters *)

Module IdentifierMore.
Import Identifier.
Local Open Scope Z_scope.

Section Classification.
Variable getCategory : Z -> string.
Variable normalizeNFKC : Z -> list Z.
Hypothesis normalize_stable :
  forall u c, c ∈ normalizeNFKC u -> normalizeNFKC c = [c].

(** X8. A unit that may start an identifier may also continue one. *)
Theorem start_character_is_part_character (fuel : nat) (u : Z) :
  (3 <= fuel)%nat ->
  isStartCharacter getCategory normalizeNFKC fuel u = Some true ->
  isPartCharacter getCategory normalizeNFKC fuel u = Some true.
Proof.
  intros Hfuel. destruct fuel as [|[|[|fuel]]]; [lia..|].
  rewrite (IdentifierFacts.isStartCharacter_value _ _ normalize_stable).
  rewrite (IdentifierFacts.isPartCharacter_value _ _ normalize_stable (S fuel)).
  destruct (normalizeNFKC u) as [|c rest]; [done|].
  intros [= [Hstart Hrest]%andb_true_iff]. simpl.
  unfold continueTestb at 1. by rewrite Hstart, Hrest.
Qed.

End Classification.

Lemma start_character_is_part_character_witness :
  isPartCharacter IdentifierSample.getCategory IdentifierSample.normalizeNFKC
    3 0xfb01 = Some true.
Proof.
  apply (start_character_is_part_character IdentifierSample.getCategory
           IdentifierSample.normalizeNFKC
           IdentifierFacts.sample_normalize_stable 3 0xfb01); [lia|].
  by vm_compute.
Defined.

End IdentifierMore.

(** ** The names of the combinators *)

(** X6. For every combinator but the date-time one, the name [from] puts
    into an expression is the name the support code defines.  For the
    date-time one they differ: [from] writes [from_date-time], the body
    defines [from_datetime]. *)
Theorem combinator_reference_and_definition df st :
  exists reference st',
    from df st = Ok reference st'
    /\ String.prefix ("def " +:+ flatten reference +:+ "(")
                     (deserializerFunctionCodes df)
       = (if decide (df = df_date_time) then false else true)
    /\ (exists reference' st'',
          from df_date_time st = Ok reference' st''
          /\ flatten reference' = "from_date-time"
          /\ String.prefix "def from_datetime("
                           (deserializerFunctionCodes df_date_time) = true).
Proof.
  eexists _, _. split; [done|]. split; [by destruct df|].
  by eexists _, _.
Qed.

(** ** What a rendering depends on *)

Lemma respects_ret {A} R (a : A) : respects R (ret a).
Proof. by intros s1 s2 HR. Qed.

Lemma respects_panic {A} R message : respects R (@panic A message).
Proof. by intros s1 s2 HR. Qed.

Lemma respects_bind {A B} R (c : M A) (k : A -> M B) :
  respects R c -> (forall a, respects R (k a)) -> respects R (bind c k).
Proof.
  intros Hc Hk s1 s2 HR. unfold bind. specialize (Hc s1 s2 HR).
  destruct (c s1) as [a1 t1| |], (c s2) as [a2 t2| |]; try done.
  destruct Hc as [-> Ht]. by apply Hk.
Qed.

Lemma respects_mapM {A B} R (f : A -> M B) l :
  (forall x, x ∈ l -> respects R (f x)) -> respects R (mapM f l).
Proof.
  induction l as [|x l IH]; intros Hf; simpl; [apply respects_ret|].
  apply respects_bind; [apply Hf; left|]. intros y.
  apply respects_bind; [|intros; apply respects_ret].
  apply IH. intros; apply Hf. by right.
Qed.

Lemma sameResult_outcome {A} R (r1 r2 : Result A) :
  sameResult R r1 r2 -> outcomeOf r1 = outcomeOf r2.
Proof.
  destruct r1, r2; simpl; try done; [by intros [-> _]|by intros ->].
Qed.

Section DependsOn.
Variable G : TypeGraph.

Lemma withImport_sameDeclared module name :
  respects sameDeclared (withImport module name).
Proof. by intros s1 s2 HR. Qed.

Lemma namedType_sameDeclared t : respects sameDeclared (namedType G t).
Proof.
  intros s1 s2 HR. unfold namedType. rewrite HR. by case_decide.
Qed.

Lemma respects_ext {A} R (c c' : M A) :
  (forall st, c st = c' st) -> respects R c' -> respects R c.
Proof. intros Heq Hc s1 s2 HR. rewrite !Heq. by apply Hc. Qed.

Lemma pythonType_sameDeclared t : respects sameDeclared (pythonType G t).
Proof.
  induction t as [t Hleaf|items IH|values IH|members IH] using IRType_ind'.
  - destruct t; try done; try apply respects_ret;
      try apply namedType_sameDeclared.
    unfold pythonType. simpl. destruct (String.eqb kind "date-time");
      [apply withImport_sameDeclared|apply respects_panic].
  - eapply respects_ext; [apply pythonType_array|].
    apply respects_bind; [apply withImport_sameDeclared|]. intros ?.
    apply respects_bind; [done|]. intros ?. apply respects_ret.
  - eapply respects_ext; [apply pythonType_map|].
    apply respects_bind; [apply withImport_sameDeclared|]. intros ?.
    apply respects_bind; [done|]. intros ?. apply respects_ret.
  - rewrite Forall_forall in IH.
    destruct (nullableFromUnion members) as [t|] eqn:Hnull.
    + eapply respects_ext; [intros; by apply pythonType_union_nullable|].
      apply nullableFromUnion_Some in Hnull as (Hin & _).
      apply respects_bind; [apply withImport_sameDeclared|]. intros ?.
      apply respects_bind; [by apply IH|]. intros ?. apply respects_ret.
    + eapply respects_ext; [intros; by apply pythonType_union_general|].
      apply respects_bind.
      * apply respects_mapM. intros m Hin%elem_of_sortedMembers. by apply IH.
      * intros ?. apply respects_bind; [apply withImport_sameDeclared|].
        intros ?. apply respects_ret.
Qed.

Lemma from_any_state df : respects (fun _ _ => True) (from df).
Proof. by intros s1 s2 _. Qed.

Lemma deserializerFn_any_state t :
  respects (fun _ _ => True) (deserializerFn G t).
Proof.
  induction t as [t Hleaf|items IH|values IH|members IH] using IRType_ind'.
  - destruct t; try done; simpl;
      try (apply respects_bind; [apply from_any_state|];
           intros; apply respects_ret);
      try apply respects_ret.
    destruct (String.eqb kind "date-time"); [|apply respects_panic].
    apply respects_bind; [apply from_any_state|]. intros; apply respects_ret.
  - simpl. apply respects_bind; [apply from_any_state|]. intros ?.
    apply respects_bind; [done|]. intros; apply respects_ret.
  - simpl. apply respects_bind; [apply from_any_state|]. intros ?.
    apply respects_bind; [done|]. intros; apply respects_ret.
  - simpl. rewrite Forall_forall in IH. apply respects_bind.
    + apply respects_mapM. intros m Hin.
      apply respects_bind; [by apply IH|]. intros; apply respects_ret.
    + intros ?. apply respects_bind; [apply from_any_state|].
      intros; apply respects_ret.
Qed.

End DependsOn.

(** X7. The annotation of a type depends on the state through the declared
    types only: from two states with the same declared types, [pythonType]
    returns the same annotation, or panics with the same message.  The
    imports, the used combinators and the lines emitted so far do not
    matter. *)
Theorem annotation_depends_on_declared_types G t st1 st2 :
  declaredTypes st1 = declaredTypes st2 ->
  outcomeOf (pythonType G t st1) = outcomeOf (pythonType G t st2)
  /\ outcomeOf (pythonType G t st1) <> None.
Proof.
  intros Hsame. split.
  - eapply sameResult_outcome. by apply pythonType_sameDeclared.
  - pose proof (pythonType_outcome G t st1) as Hout.
    by destruct (pythonType G t st1).
Qed.

Lemma annotation_depends_on_declared_types_witness :
  outcomeOf (pythonType (sampleGraph [])
               (UnionType [ClassType 1%positive; ArrayType StringType])
               initialState)
  = outcomeOf (pythonType (sampleGraph [])
                 (UnionType [ClassType 1%positive; ArrayType StringType])
                 (setImports [("typing", ["Union"])]
                    (setDeserializerFunctions [df_str] initialState))).
Proof.
  apply (annotation_depends_on_declared_types (sampleGraph [])
           (UnionType [ClassType 1%positive; ArrayType StringType])
           initialState
           (setImports [("typing", ["Union"])]
              (setDeserializerFunctions [df_str] initialState))).
  reflexivity.
Defined.

Lemma holdsQuote_arrayIntercalate separator items :
  holdsQuote separator = false ->
  Forall (fun item => holdsQuote item = false) items ->
  existsb holdsQuote (arrayIntercalate separator items) = false.
Proof.
  intros Hsep. induction 1 as [|item items Hitem Hitems IH]; [done|].
  destruct items as [|item' items]; simpl in *; [by rewrite Hitem|].
  by rewrite Hitem, Hsep.
Qed.

Lemma holdsQuote_parenIfNeeded w :
  holdsQuote (source w) = false -> holdsQuote (parenIfNeeded w) = false.
Proof.
  intros Hw. unfold parenIfNeeded. destruct (needsParens w); [|done].
  simpl. by rewrite Hw.
Qed.

Lemma holdsQuote_from df st f st' :
  from df st = Ok f st' -> holdsQuote f = false.
Proof. intros [= <- _]. by destruct df. Qed.

Lemma deserializerFn_holdsQuote G t : forall st w st',
  deserializerFn G t st = Ok w st' -> holdsQuote (source w) = false.
Proof.
  induction t as [t Hleaf|items IH|values IH|members IH] using IRType_ind';
    intros st w st'.
  - destruct t; try done; simpl;
      try (by intros [= <- _]).
    destruct (String.eqb kind "date-time"); [|done].
    by intros [= <- _].
  - simpl. intros (f & st1 & Hf & (inner & st2 & Hrun & [= <- _])%bind_Ok)%bind_Ok.
    apply holdsQuote_from in Hf. apply IH, holdsQuote_parenIfNeeded in Hrun.
    simpl. by rewrite Hf, Hrun.
  - simpl. intros (f & st1 & Hf & (inner & st2 & Hrun & [= <- _])%bind_Ok)%bind_Ok.
    apply holdsQuote_from in Hf. apply IH, holdsQuote_parenIfNeeded in Hrun.
    simpl. by rewrite Hf, Hrun.
  - simpl. intros (ds & st1 & Hds & (f & st2 & Hf & [= <- _])%bind_Ok)%bind_Ok.
    apply holdsQuote_from in Hf. apply mapM_Forall2 in Hds.
    assert (Forall (fun d => holdsQuote d = false) ds) as Hall.
    { clear Hf. induction Hds as [|m d members' ds' Hd Hrest IHrest];
        [constructor|].
      apply Forall_cons in IH as [Hm Hmembers].
      constructor; [|by apply IHrest].
      destruct Hd as (s & s' & (w' & s1 & Hw' & [= <- _])%bind_Ok).
      by eapply Hm. }
    simpl. rewrite Hf. simpl.
    by rewrite (holdsQuote_arrayIntercalate (SString ", ") ds eq_refl Hall).
Qed.

(** X9. The deserializer expression of a type does not depend on the state
    at all: from any two states [deserializerFn] returns the same
    expression, or panics with the same message.  The expression holds no
    quote: a class or an enum is referred to by its bare name, declared or
    not, where the annotation of an undeclared one is the quoted name. *)
Theorem deserializer_expression_is_a_function_of_the_type G t st1 st2 :
  outcomeOf (deserializerFn G t st1) = outcomeOf (deserializerFn G t st2)
  /\ outcomeOf (deserializerFn G t st1) <> None
  /\ match deserializerFn G t st1 with
     | Ok w _ => holdsQuote (source w) = false
     | _ => True
     end
  /\ forall c,
       deserializerFn G (ClassType c) st1
         = Ok (singleWord [SName (nameForNamedType G c)]) st1
       /\ deserializerFn G (EnumType c) st1
          = Ok (singleWord [SName (nameForNamedType G c)]) st1
       /\ holdsQuote (quoted (nameForNamedType G c)) = true
       /\ pythonType G (ClassType c) st1
          = Ok (if decide (c ∈ declaredTypes st1)
                then SName (nameForNamedType G c)
                else quoted (nameForNamedType G c)) st1.
Proof.
  split_and!.
  - eapply sameResult_outcome. by apply deserializerFn_any_state.
  - pose proof (deserializerFn_outcome G t st1) as Hout.
    by destruct (deserializerFn G t st1).
  - destruct (deserializerFn G t st1) as [w st'| |] eqn:Hrun; [|done..].
    by eapply deserializerFn_holdsQuote.
  - intros c. split_and!; [done..|].
    change (pythonType G (ClassType c)) with (namedType G c).
    unfold namedType. by case_decide.
Qed.

(** ** What a rendering writes *)

Lemma setAdd_prefix {A} `{EqDecision A} (x : A) s : s `prefix_of` setAdd x s.
Proof. unfold setAdd. case_decide; [done|]. by apply prefix_app_r. Qed.

Lemma addAll_prefix {A} `{EqDecision A} (l s : list A) :
  s `prefix_of` addAll l s.
Proof.
  revert s. induction l as [|x l IH]; intros s; [done|].
  etrans; [apply (setAdd_prefix x)|apply IH].
Qed.

Lemma importInto_keys_prefix module name i :
  i.*1 `prefix_of` (importInto module name i).*1.
Proof.
  unfold importInto. rewrite mapUpdateInto_keys.
  case_decide; [done|]. by apply prefix_app_r.
Qed.

(** X4. [pythonType] writes the imports and nothing else: no line is
    emitted, no type declared, no combinator used, the indentation stays.
    The imports only grow: what was imported stays imported, and the
    modules keep their places, new ones coming last. *)
Theorem pythonType_writes_imports_only G t st :
  match pythonType G t st with
  | Ok _ st' =>
      declaredTypes st' = declaredTypes st
      /\ deserializerFunctions st' = deserializerFunctions st
      /\ emitted st' = emitted st
      /\ indentation st' = indentation st
      /\ (imports st).*1 `prefix_of` (imports st').*1
      /\ forall module name,
           hasImport module name st -> hasImport module name st'
  | _ => True
  end.
Proof.
  destruct (pythonType G t st) as [a st'| |] eqn:Hrun; [|done..].
  pose proof (pythonType_preserves G
    (fun s => declaredTypes s = declaredTypes st
              /\ deserializerFunctions s = deserializerFunctions st
              /\ emitted s = emitted st
              /\ indentation s = indentation st
              /\ (imports st).*1 `prefix_of` (imports s).*1) t) as Hframe.
  pose proof Hrun as Hrun'.
  eapply Hframe in Hrun' as (? & ? & ? & ? & ?); [| |by split_and!].
  - split_and!; [done..|]. intros module name Himp.
    by eapply pythonType_keeps_import.
  - intros module name s (? & ? & ? & ? & Hpre). split_and!; [done..|].
    simpl. etrans; [exact Hpre|apply importInto_keys_prefix].
Qed.

(** X5. [deserializerFn] writes the used combinators and nothing else, and
    the set only grows at its end: the combinators used before keep their
    places, and no combinator is listed twice if none was. *)
Theorem deserializerFn_writes_used_set_only G t st :
  match deserializerFn G t st with
  | Ok _ st' =>
      imports st' = imports st
      /\ declaredTypes st' = declaredTypes st
      /\ emitted st' = emitted st
      /\ indentation st' = indentation st
      /\ deserializerFunctions st `prefix_of` deserializerFunctions st'
      /\ (NoDup (deserializerFunctions st) -> NoDup (deserializerFunctions st'))
      /\ forall df,
           df ∈ deserializerFunctions st' <->
           df ∈ referencedCombinators t \/ df ∈ deserializerFunctions st
  | _ => True
  end.
Proof.
  destruct (deserializerFn G t st) as [w st'| |] eqn:Hrun; [|done..].
  apply deserializerFn_state in Hrun as ->. simpl.
  split_and!; [done..|apply addAll_prefix|apply NoDup_addAll|].
  intros df. apply elem_of_addAll.
Qed.

(** ** When generation succeeds *)

Lemma decides_iff {A} (c : M A) C C' (P P' : string -> Prop) :
  (C <-> C') -> (forall message, P message -> P' message) ->
  decides c C P -> decides c C' P'.
Proof.
  intros HC HP Hc st. specialize (Hc st).
  destruct (c st); [tauto| |done]. destruct Hc. split; [tauto|auto].
Qed.

Lemma decides_ret {A} (a : A) P : decides (ret a) True P.
Proof. by intros st. Qed.

Lemma decides_panic {A} message (P : string -> Prop) :
  P message -> decides (@panic A message) False P.
Proof. intros HP st. simpl. tauto. Qed.

Lemma decides_holds {A} (c : M A) (C : Prop) P :
  C -> decides c True (fun _ => False) -> decides c C P.
Proof.
  intros HC Hc. eapply decides_iff; [| |exact Hc]; [tauto|by intros ? []].
Qed.

Lemma decides_bind {A B} (c : M A) (k : A -> M B) C1 C2 P :
  decides c C1 P -> (forall a, decides (k a) C2 P) ->
  decides (bind c k) (C1 /\ C2) P.
Proof.
  intros Hc Hk st. unfold bind. specialize (Hc st).
  destruct (c st) as [a st'|message|]; [|tauto|done].
  specialize (Hk a st'). destruct (k a st'); tauto.
Qed.

Lemma decides_seq_l {A B} (c : M A) (k : A -> M B) C P :
  decides c True P -> (forall a, decides (k a) C P) -> decides (bind c k) C P.
Proof.
  intros Hc Hk. eapply decides_iff; [| |by apply decides_bind]; [tauto|auto].
Qed.

Lemma decides_seq_r {A B} (c : M A) (k : A -> M B) C P :
  decides c C P -> (forall a, decides (k a) True P) -> decides (bind c k) C P.
Proof.
  intros Hc Hk. eapply decides_iff; [| |by apply decides_bind]; [tauto|auto].
Qed.

Lemma decides_forEach {A} (f : A -> M unit) (C : A -> Prop)
  (P : A -> string -> Prop) l :
  (forall x, x ∈ l -> decides (f x) (C x) (P x)) ->
  decides (forEach f l) (forall x, x ∈ l -> C x)
          (fun message => exists x, x ∈ l /\ P x message).
Proof.
  induction l as [|x l IH]; intros Hf.
  - apply decides_holds; [by intros ? ?%elem_of_nil|apply decides_ret].
  - simpl.
    eapply (decides_iff _ (C x /\ (forall y, y ∈ l -> C y)) _
              (fun message => exists y, y ∈ x :: l /\ P y message));
      [| |apply decides_bind].
    + split.
      * intros [Hx Hl] y [->|Hy]%elem_of_cons; auto.
      * intros Hall. split; [apply Hall; left|].
        intros y Hy. apply Hall. by right.
    + intros message Hm. exact Hm.
    + eapply decides_iff; [done| |apply Hf; left].
      intros message Hm. exists x. split; [left|done].
    + intros _. eapply decides_iff; [done| |apply IH].
      * intros message (y & Hy & Hm). exists y. split; [by right|done].
      * intros y Hy. apply Hf. by right.
Qed.

Lemma decides_always {A} (c : M A) P :
  (forall st, exists a st', c st = Ok a st') -> decides c True P.
Proof. intros Hc st. by destruct (Hc st) as (a & st' & ->). Qed.

Lemma decides_forEach_always {A} (f : A -> M unit) l P :
  (forall x, decides (f x) True P) -> decides (forEach f l) True P.
Proof.
  intros Hf. induction l as [|x l IH]; simpl; [apply decides_ret|].
  apply decides_seq_l; [apply Hf|]. by intros _.
Qed.

Lemma decides_indent f C P : decides f C P -> decides (indent f) C P.
Proof.
  intros Hf st. unfold indent.
  match goal with |- context [f ?s] => specialize (Hf s); by destruct (f s) end.
Qed.

Lemma decides_gatherSource f C P :
  decides f C P -> decides (gatherSource f) C P.
Proof.
  intros Hf st. unfold gatherSource.
  match goal with |- context [f ?s] => specialize (Hf s); by destruct (f s) end.
Qed.

Lemma decides_emitLine lineParts P : decides (emitLine lineParts) True P.
Proof. apply decides_always. intros st. by eexists _, _. Qed.

Lemma decides_ensureBlankLine P : decides ensureBlankLine True P.
Proof.
  apply decides_always. intros st. unfold ensureBlankLine.
  destruct (last (emitted st)) as [[]|]; by eexists _, _.
Qed.

Lemma decides_emitOptionalLine line P : decides (emitOptionalLine line) True P.
Proof. destruct line; [apply decides_emitLine|apply decides_ret]. Qed.

Lemma decides_emitCommentLines lines lineStart beforeLine afterLine first P :
  decides (emitCommentLines lines lineStart beforeLine afterLine first) True P.
Proof.
  unfold emitCommentLines.
  apply decides_seq_l; [apply decides_emitOptionalLine|]. intros _.
  apply decides_seq_l; [|intros; apply decides_emitOptionalLine].
  destruct lines; [apply decides_ret|].
  apply decides_seq_l; [apply decides_emitLine|]. intros _.
  apply decides_forEach_always. intros; apply decides_emitLine.
Qed.

Lemma decides_emitDescription description P :
  decides (emitDescription description) True P.
Proof.
  destruct description as [lines|]; [|apply decides_ret].
  simpl. unfold emitDescriptionBlock.
  destruct lines as [|? [|]];
    auto using decides_emitCommentLines, decides_emitLine.
Qed.

Lemma decides_emitBlock line f C P :
  decides f C P -> decides (emitBlock line f) C P.
Proof.
  intros Hf. apply decides_seq_l; [apply decides_emitLine|].
  intros _. by apply decides_indent.
Qed.

Section Generation.
Variable G : TypeGraph.

Lemma decides_pythonType t :
  decides (pythonType G t) (unsupportedKinds t = [])
          (fun message => exists kind,
             kind ∈ unsupportedKinds t /\ message = unsupportedMessage kind).
Proof.
  intros st. pose proof (pythonType_outcome G t st) as Hout.
  destruct (pythonType G t st) as [| message |]; [done| |done].
  split; [|done]. destruct Hout as (kind & Hin & _).
  intros Hnil. rewrite Hnil in Hin. by apply elem_of_nil in Hin.
Qed.

Lemma decides_deserializer value t :
  decides (deserializer G value t) (unsupportedKinds t = [])
          (fun message => exists kind,
             kind ∈ unsupportedKinds t /\ message = unsupportedMessage kind).
Proof.
  intros st. unfold deserializer, bind.
  pose proof (deserializerFn_outcome G t st) as Hout.
  destruct (deserializerFn G t st) as [| message |]; [done| |done].
  split; [|done]. destruct Hout as (kind & Hin & _).
  intros Hnil. rewrite Hnil in Hin. by apply elem_of_nil in Hin.
Qed.

Lemma decides_declareType_named t emitter C P :
  match t with ClassType _ | EnumType _ => True | _ => False end ->
  decides emitter C P -> decides (declareType G t emitter) C P.
Proof.
  intros Hnamed He. unfold declareType.
  apply decides_seq_l; [apply decides_emitDescription|]. intros _.
  apply decides_seq_l.
  { destruct t; try done; try apply decides_ret;
      (apply decides_seq_l; [|intros; apply decides_ret]);
      apply decides_always; intros st; by eexists _, _. }
  intros line. apply decides_seq_r; [by apply decides_emitBlock|].
  intros _. apply decides_always. intros st. unfold addDeclaredType.
  destruct t; by eexists _, _.
Qed.

Lemma decides_properties (f : ClassProperty -> M unit) c properties :
  (forall cp, decides (f cp) (unsupportedKinds (cp_type cp) = [])
                      (fun message => exists kind,
                         kind ∈ unsupportedKinds (cp_type cp)
                         /\ message = unsupportedMessage kind)) ->
  getProperties G c = properties ->
  decides (forEach f properties) (supportedClass G c) (classPanic G c).
Proof.
  intros Hf Hprops.
  eapply decides_iff;
    [| |apply (decides_forEach f
                 (fun cp => unsupportedKinds (cp_type cp) = [])
                 (fun cp message =>
                    exists kind, kind ∈ unsupportedKinds (cp_type cp)
                                 /\ message = unsupportedMessage kind))].
  - unfold supportedClass. by rewrite Hprops.
  - intros message (cp & Hcp & kind & Hkind & ->). exists cp, kind.
    by rewrite Hprops.
  - intros cp _. apply Hf.
Qed.

Lemma decides_emitClass c :
  decides (emitClass G (JSONPythonRenderer G) c)
          (supportedClass G c) (classPanic G c).
Proof.
  apply (decides_declareType_named (ClassType c)); [done|].
  destruct (getProperties G c) as [|cp0 l] eqn:Hprops.
  - apply decides_holds; [|apply decides_emitLine].
    unfold supportedClass. rewrite Hprops. by intros ? ?%elem_of_nil.
  - eapply (decides_iff _ (supportedClass G c /\ supportedClass G c) _
                (classPanic G c)); [| |apply decides_bind].
    + split; [apply proj1|]. intros H. split; exact H.
    + intros message Hm. exact Hm.
    + apply decides_properties; [|done]. intros cp.
      apply decides_seq_l; [apply decides_emitDescription|]. intros _.
      apply decides_seq_r; [apply decides_pythonType|].
      intros; apply decides_emitLine.
    + intros _. apply decides_seq_l; [apply decides_ensureBlankLine|].
      intros _. simpl. unfold JSON_emitClassMembers.
      apply decides_emitBlock.
      apply decides_seq_l; [apply decides_emitLine|]. intros _.
      apply decides_properties; [|done]. intros cp.
      apply decides_seq_r; [apply decides_deserializer|].
      intros; apply decides_emitLine.
Qed.

Lemma decides_emitEnum c P : decides (emitEnum G c) True P.
Proof.
  apply (decides_declareType_named (EnumType c)); [done|].
  apply decides_forEach_always. intros [name jsonName].
  apply decides_emitLine.
Qed.

Lemma decides_emitDeclaration decl :
  decides (emitDeclaration G (JSONPythonRenderer G) decl)
          (declarable G decl) (declarationPanic G decl).
Proof.
  unfold emitDeclaration, declarable, declarationPanic.
  destruct (decl_kind decl); [apply decides_ret|].
  destruct (decl_type decl);
    try (apply decides_panic; by split);
    try (apply decides_holds; [done|apply decides_ret]).
  - eapply decides_iff; [done| |apply decides_emitClass]. by split.
  - apply decides_emitEnum.
Qed.

Lemma decides_declarations decls :
  decides (forEachInterposing (emitDeclaration G (JSONPythonRenderer G)) decls)
          (forall decl, decl ∈ decls -> declarable G decl)
          (fun message =>
             exists decl, decl ∈ decls /\ declarationPanic G decl message).
Proof.
  destruct decls as [|decl decls].
  - apply decides_holds; [by intros ? ?%elem_of_nil|apply decides_ret].
  - simpl.
    eapply (decides_iff _
              (declarable G decl /\ (forall y, y ∈ decls -> declarable G y)) _
              (fun message =>
                 exists y, y ∈ decl :: decls /\ declarationPanic G y message));
      [| |apply decides_bind].
    + split.
      * intros [Hx Hl] y [->|Hy]%elem_of_cons; [done|]. by apply Hl.
      * intros Hall. split; [apply Hall; left|].
        intros y Hy. apply Hall. by right.
    + intros message Hm. exact Hm.
    + eapply decides_iff; [done| |apply decides_emitDeclaration].
      intros message Hm. exists decl. split; [left|done].
    + intros _. eapply decides_iff; [done| |apply decides_forEach].
      * intros message (y & Hy & Hm). exists y. split; [by right|exact Hm].
      * intros d _. apply decides_seq_l; [apply decides_ensureBlankLine|].
        intros _. apply decides_emitDeclaration.
Qed.

End Generation.

(** The whole generation decides whether every declaration is declarable. *)
Lemma decides_emitSourceStructure G :
  decides (emitSourceStructure G (JSONPythonRenderer G))
          (forall decl, decl ∈ declarations G -> declarable G decl)
          (fun message =>
             exists decl, decl ∈ declarations G
                          /\ declarationPanic G decl message).
Proof.
  unfold emitSourceStructure.
  apply decides_seq_r; [apply decides_gatherSource, decides_declarations|].
  intros declarationLines. apply decides_seq_l.
  { apply decides_gatherSource, decides_always. intros st. simpl.
    rewrite JSON_emitSupportCode_run. by eexists _, _. }
  intros supportLines. apply decides_seq_l.
  { destruct (leadingComments G); apply decides_emitCommentLines. }
  intros _. apply decides_seq_l; [apply decides_ensureBlankLine|].
  intros _. apply decides_seq_l.
  { intros st. unfold emitImports.
    apply (decides_forEach_always _ (imports st)).
    intros [module names]. apply decides_emitLine. }
  intros _. apply decides_seq_l; [apply decides_ensureBlankLine|].
  intros _. apply decides_seq_l.
  { apply decides_always. intros st. by eexists _, _. }
  intros _. apply decides_seq_l; [apply decides_ensureBlankLine|].
  intros _. apply decides_always. intros st. by eexists _, _.
Qed.

(** X12. Generation returns an artifact exactly when every declaration is
    a forward declaration or defines a class whose property types hold no
    unsupported kind, an enum, or a union.  Otherwise it panics, with
    [Cannot declare type <kind>] for a declaration that defines another
    type, or with the message that names an unsupported kind of a property
    of a declared class.  It never runs out of fuel, and the panic of
    [declarationLine] is never the one raised. *)
Theorem generation_outcome G :
  match renderJSON G with
  | Ok _ _ => forall decl, decl ∈ declarations G -> declarable G decl
  | Panic message =>
      ~ (forall decl, decl ∈ declarations G -> declarable G decl)
      /\ exists decl, decl ∈ declarations G /\ declarationPanic G decl message
  | OutOfFuel => False
  end
  /\ forall kind, renderJSON G <> Panic ("Can't declare type " +:+ kind).
Proof.
  pose proof (decides_emitSourceStructure G initialState) as H.
  fold (renderJSON G) in H. split; [exact H|].
  intros kind Heq. rewrite Heq in H.
  destruct H as (_ & decl & _ & _ & Hshape).
  destruct (decl_type decl); try done.
  by destruct Hshape as (cp & kind' & _ & _ & ?).
Qed.

(** ** References along the declaration order *)

Lemma forEach_app {A} (f : A -> M unit) l1 l2 st :
  forEach f (l1 ++ l2) st = (forEach f l1 ;; forEach f l2) st.
Proof.
  revert st. induction l1 as [|x l1 IH]; intros st; simpl; [done|].
  unfold bind. destruct (f x st) as [[] st1| |]; [|done..]. apply IH.
Qed.

Lemma evolves_eq d u d' u' st st' :
  d = d' -> u = u' -> evolves d u st st' -> evolves d' u' st st'.
Proof. by intros -> ->. Qed.

Lemma forEachInterposing_elem {A} (f : A -> M unit) (D : A -> gset TypeRef)
  (U : A -> list DeserializerFunction) pre x post st st' :
  (forall y, runs (f y) (D y) (U y)) ->
  forEachInterposing f (pre ++ x :: post) st = Ok tt st' ->
  exists sa sb,
    evolves (⋃ (D <$> pre)) (flat_map U pre) st sa
    /\ f x sa = Ok tt sb
    /\ evolves (⋃ (D <$> post)) (flat_map U post) sb st'.
Proof.
  intros Hf.
  assert (forall l, runs (forEach (fun y => ensureBlankLine ;; f y) l)
                         (⋃ (D <$> l)) (flat_map U l)) as Hrest.
  { intros l. apply runs_forEach. intros y _.
    apply runs_quiet_bind_l; [apply runs_ensureBlankLine|]. intros; apply Hf. }
  destruct pre as [|x0 pre]; simpl.
  - intros ([] & sb & Hx & Hpost%Hrest)%bind_Ok.
    exists st, sb. split_and!; [apply evolves_refl|done..].
  - intros ([] & s1 & Hx0%Hf & Hloop)%bind_Ok.
    rewrite forEach_app in Hloop.
    apply bind_Ok in Hloop as ([] & s2 & Hpre%Hrest & Hloop).
    simpl in Hloop.
    apply bind_Ok in Hloop as ([] & sb & Hx & Hpost%Hrest).
    apply bind_Ok in Hx as ([] & sa & Hblank%runs_ensureBlankLine & Hx).
    exists sa, sb. split_and!; [|done..].
    pose proof (evolves_trans _ _ _ _ _ _ _
                  (evolves_trans _ _ _ _ _ _ _ Hx0 Hpre) Hblank) as Hall.
    eapply evolves_eq; [| |exact Hall].
    + apply (right_id_L ∅ (∪)).
    + by rewrite app_nil_r.
Qed.

Section ReferenceFacts.
Variable G : TypeGraph.
Variable R : RendererClass.
Variable U : TypeRef -> list DeserializerFunction.
Hypothesis members_run : forall c, runs (emitClassMembers R c) ∅ (U c).
Hypothesis members_none : forall c, getProperties G c = [] -> U c = [].

(** The annotation line of a property that refers to a named type, in a
    class emitted from a given state. *)
Lemma emitClass_reference c cp c' st st' :
  cp ∈ getProperties G c ->
  cp_type cp = ClassType c' \/ cp_type cp = EnumType c' ->
  emitClass G R c st = Ok tt st' ->
  SourceLine (S (indentation st))
    [SName (cp_name cp); SString ": ";
     if decide (c' ∈ declaredTypes st) then SName (nameForNamedType G c')
     else quoted (nameForNamedType G c')]
    ∈ emitted st'.
Proof.
  intros Hcp Htype. unfold emitClass, declareType.
  intros ([] & st1 & H1%runs_emitDescription
          & (line & st2 & H2%runs_declarationLine
             & ([] & st3 & Hblock & H4%runs_addDeclaredType)%bind_Ok)%bind_Ok)%bind_Ok.
  eapply evolves_elem_of; [exact H4|]. clear H4.
  revert Hblock. unfold emitBlock.
  intros ([] & st2' & H3%runs_emitLine & Hindent)%bind_Ok.
  revert Hindent. unfold indent.
  destruct (getProperties G c) as [|cp0 l] eqn:Hprops;
    [by apply elem_of_nil in Hcp|].
  match goal with |- context [bind ?f ?k ?s] =>
    destruct (bind f k s) as [[] st3'| |] eqn:Hbody end; intros [= <-].
  simpl. apply bind_Ok in Hbody as ([] & s1 & Hloop & Hrest).
  assert (evolves ∅ (U c) s1 st3') as Hafter.
  { revert Hrest. apply runs_quiet_bind_l; [apply runs_ensureBlankLine|].
    intros; apply members_run. }
  eapply evolves_elem_of; [exact Hafter|]. clear Hafter Hrest.
  eapply forEach_elem_of in Hloop as (sa & sb & Ha & Hrun & Hb);
    [|intros; apply runs_property|exact Hcp].
  eapply evolves_elem_of; [exact Hb|]. clear Hb.
  apply bind_Ok in Hrun as ([] & sa1 & Hd%runs_emitDescription & Hrun).
  assert (pythonType G (cp_type cp) = namedType G c') as Hnamed
    by (by destruct Htype as [-> | ->]).
  rewrite Hnamed in Hrun.
  destruct H1 as (Hd1 & _ & _ & Hi1), H2 as (Hd2 & _ & _ & Hi2),
    H3 as (Hd3 & _ & _ & Hi3), Ha as (Hda & _ & _ & Hia),
    Hd as (Hdd & _ & _ & Hid).
  simpl in *. rewrite (left_id_L ∅ (∪)) in Hd1, Hd2, Hd3, Hda, Hdd.
  assert (declaredTypes sa1 = declaredTypes st) as Hdecl by congruence.
  assert (indentation sa1 = S (indentation st)) as Hind by congruence.
  revert Hrun. unfold bind, namedType. rewrite Hdecl.
  case_decide; intros [= <-]; simpl;
    apply elem_of_app; right; rewrite Hind; left.
Qed.

Lemma declarations_reference pre c post cp c' st st' :
  forEachInterposing (emitDeclaration G R)
    (pre ++ {| decl_kind := define; decl_type := ClassType c |} :: post) st
    = Ok tt st' ->
  cp ∈ getProperties G c ->
  cp_type cp = ClassType c' \/ cp_type cp = EnumType c' ->
  SourceLine (S (indentation st))
    [SName (cp_name cp); SString ": ";
     if decide (c' ∈ ⋃ (declaredBy <$> pre) ∪ declaredTypes st)
     then SName (nameForNamedType G c')
     else quoted (nameForNamedType G c')]
    ∈ emitted st'.
Proof.
  intros (sa & sb & Ha & Hclass & Hb)%(forEachInterposing_elem _ declaredBy
    (declarationUses U)); [|apply (runs_emitDeclaration G R U); done].
  intros Hcp Htype. eapply evolves_elem_of; [exact Hb|].
  destruct Ha as (Hda & _ & _ & Hia). rewrite <- Hda, <- Hia.
  by apply (emitClass_reference c).
Qed.

End ReferenceFacts.

(** X13. Along the declaration order, a property of a class that refers to
    a class or an enum is annotated with the bare name exactly if that
    type is defined by an earlier declaration (or was declared before the
    declarations began), and with the quoted name otherwise: a reference
    to the class itself or to a type that comes later is quoted. *)
Theorem reference_is_bare_after_its_declaration
  G R pre c post cp c' st st' :
  R = PythonRenderer \/ R = JSONPythonRenderer G ->
  forEachInterposing (emitDeclaration G R)
    (pre ++ {| decl_kind := define; decl_type := ClassType c |} :: post) st
    = Ok tt st' ->
  cp ∈ getProperties G c ->
  cp_type cp = ClassType c' \/ cp_type cp = EnumType c' ->
  SourceLine (S (indentation st))
    [SName (cp_name cp); SString ": ";
     if decide (c' ∈ ⋃ (declaredBy <$> pre) ∪ declaredTypes st)
     then SName (nameForNamedType G c')
     else quoted (nameForNamedType G c')]
    ∈ emitted st'.
Proof.
  intros (U & Hrun & Hnone)%renderer_members_run.
  by apply (declarations_reference G R U).
Qed.

Lemma reference_is_bare_after_its_declaration_witness :
  match forEachInterposing
          (emitDeclaration mutualGraph (JSONPythonRenderer mutualGraph))
          (declarations mutualGraph) initialState with
  | Ok _ st' =>
      SourceLine 1 [SName "a"; SString ": "; SName "A"] ∈ emitted st'
  | _ => False
  end.
Proof.
  destruct (forEachInterposing _ _ _) as [[] st'| |] eqn:Hrun;
    [|by vm_compute in Hrun..].
  apply (reference_is_bare_after_its_declaration mutualGraph
           (JSONPythonRenderer mutualGraph)
           [{| decl_kind := define; decl_type := ClassType 1%positive |}]
           2%positive [] (property "a" (ClassType 1%positive)) 1%positive
           initialState st' (or_intror eq_refl) Hrun);
    [left|by left].
Defined.

(** ** The imports of an annotation *)

Lemma hoare_weaken {A} (P P' : RendererState -> Prop) (c : M A)
  (Q Q' : A -> RendererState -> Prop) :
  (forall st, P st -> P' st) -> (forall a st, Q' a st -> Q a st) ->
  hoare P' c Q' -> hoare P c Q.
Proof. intros HP HQ H st a st' Hst Hc. eapply HQ, H; eauto. Qed.

Lemma importsAre_ext st0 (S S' : string -> string -> Prop) st :
  (forall module name, S module name <-> S' module name) ->
  importsAre st0 S st -> importsAre st0 S' st.
Proof. intros HS H module name. by rewrite (H module name), HS. Qed.

Lemma withImport_importsAre st0 S module name :
  hoare (importsAre st0 S) (withImport module name)
        (fun _ => importsAre st0
                    (fun m n => S m n \/ (m = module /\ n = name))).
Proof.
  intros st a st' Hst [= _ <-] m n.
  rewrite hasImport_importInto_iff, (Hst m n). tauto.
Qed.

Lemma mapM_importsAre {B} st0 (f : IRType -> M B) l : forall S,
  (forall t S, t ∈ l ->
     hoare (importsAre st0 S) (f t)
           (fun _ => importsAre st0
                       (fun m n => S m n \/ (m, n) ∈ annotationImports t))) ->
  hoare (importsAre st0 S) (mapM f l)
        (fun _ => importsAre st0
                    (fun m n => S m n
                                \/ (m, n) ∈ flat_map annotationImports l)).
Proof.
  induction l as [|t l IH]; intros S Hf; simpl.
  - apply hoare_ret. intros st Hst. eapply importsAre_ext; [|exact Hst].
    intros m n. split; [by left|]. by intros [|?%elem_of_nil].
  - eapply hoare_bind; [apply Hf; left|]. intros y.
    eapply hoare_bind; [apply IH; intros; apply Hf; by right|].
    intros ys. apply hoare_ret. intros st Hst.
    eapply importsAre_ext; [|exact Hst].
    intros m n. simpl. rewrite elem_of_app. tauto.
Qed.

Lemma elem_of_annotationImports_members members m n :
  (m, n) ∈ flat_map annotationImports (members : list IRType) <->
  exists t, t ∈ members /\ (m, n) ∈ annotationImports t.
Proof. apply elem_of_flat_map. Qed.

Lemma pythonType_importsAre G st0 t : forall S,
  hoare (importsAre st0 S) (pythonType G t)
        (fun _ => importsAre st0
                    (fun m n => S m n \/ (m, n) ∈ annotationImports t)).
Proof.
  induction t as [t Hleaf|items IH|values IH|members IH] using IRType_ind';
    intros S.
  - assert (forall (c : M Sourcelike),
              preserves (importsAre st0 S) c ->
              annotationImports t = [] ->
              hoare (importsAre st0 S) c
                (fun _ => importsAre st0
                   (fun m n => S m n \/ (m, n) ∈ annotationImports t)))
      as Hquiet.
    { intros c Hc Hnil. eapply hoare_weaken; [done| |exact Hc].
      intros ? st Hst. eapply importsAre_ext; [|exact Hst].
      intros m n. rewrite Hnil. split; [by left|]. by intros [|?%elem_of_nil]. }
    destruct t; try done;
      try (apply Hquiet; [apply preserves_ret|done]);
      try (apply Hquiet; [apply namedType_preserves|done]).
    + eapply hoare_weaken; [done| |apply withImport_importsAre].
      intros ? st Hst. eapply importsAre_ext; [|exact Hst].
      intros m n. simpl. rewrite list_elem_of_singleton.
      split; (intros [?|?]; [by left|right]); naive_solver.
    + unfold pythonType. simpl.
      destruct (String.eqb kind "date-time"); [|apply hoare_panic].
      eapply hoare_weaken; [done| |apply withImport_importsAre].
      intros ? st Hst. eapply importsAre_ext; [|exact Hst].
      intros m n. rewrite list_elem_of_singleton.
      split; (intros [?|?]; [by left|right]); naive_solver.
  - eapply hoare_ext; [apply pythonType_array|].
    eapply hoare_bind; [apply withImport_importsAre|]. intros ?.
    eapply hoare_bind; [apply IH|]. intros ?. apply hoare_ret.
    intros st Hst. eapply importsAre_ext; [|exact Hst].
    intros m n. simpl. rewrite elem_of_cons. naive_solver.
  - eapply hoare_ext; [apply pythonType_map|].
    eapply hoare_bind; [apply withImport_importsAre|]. intros ?.
    eapply hoare_bind; [apply IH|]. intros ?. apply hoare_ret.
    intros st Hst. eapply importsAre_ext; [|exact Hst].
    intros m n. simpl. rewrite elem_of_cons. naive_solver.
  - rewrite Forall_forall in IH.
    destruct (nullableFromUnion members) as [t|] eqn:Hnull.
    + eapply hoare_ext; [intros; by apply pythonType_union_nullable|].
      pose proof (nullableFromUnion_Some _ _ Hnull) as (Hin & _).
      eapply hoare_bind; [apply withImport_importsAre|]. intros ?.
      eapply hoare_bind; [by apply IH|]. intros ?. apply hoare_ret.
      intros st Hst. eapply importsAre_ext; [|exact Hst].
      intros m n. simpl. rewrite Hnull, elem_of_cons,
        elem_of_annotationImports_members.
      split.
      * intros [[?|[-> ->]]|?]; [by left|right; by left|].
        right. right. eauto.
      * intros [?|[[= -> ->]|(t' & Ht' & Hmn)]]; [by left; left|left; by right|].
        destruct (nullableFromUnion_members _ t t' Hnull Ht') as [-> | ->];
          [by apply elem_of_nil in Hmn|by right].
    + eapply hoare_ext; [intros; by apply pythonType_union_general|].
      eapply hoare_bind.
      { apply mapM_importsAre. intros t S' Ht%elem_of_sortedMembers.
        by apply IH. }
      intros ?. eapply hoare_bind; [apply withImport_importsAre|].
      intros ?. apply hoare_ret.
      intros st Hst. eapply importsAre_ext; [|exact Hst].
      intros m n. simpl. rewrite Hnull, elem_of_cons,
        !elem_of_annotationImports_members.
      setoid_rewrite (elem_of_sortedMembers G). naive_solver.
Qed.

(** X3. Rendering an annotation imports exactly what the annotation needs:
    afterwards a name is imported from a module exactly if the type asks
    for it ([Any], [List], [Dict], [Optional] for null-and-one-member,
    [Union] for another union, [datetime]) or it was imported before. *)
Theorem annotation_imports_what_it_needs G t st module name :
  match pythonType G t st with
  | Ok _ st' =>
      hasImport module name st' <->
      (module, name) ∈ annotationImports t \/ hasImport module name st
  | _ => True
  end.
Proof.
  destruct (pythonType G t st) as [a st'| |] eqn:Hrun; [|done..].
  pose proof (pythonType_importsAre G st t (fun _ _ => False) st a st') as H.
  assert (importsAre st (fun _ _ => False) st) as Hinit
    by (intros m n; tauto).
  specialize (H Hinit Hrun module name). simpl in H. tauto.
Qed.

(** ** The text of unions and of deserializer calls *)

Lemma string_app_nil_r (s : string) : s +:+ "" = s.
Proof.
  induction s as [|c s IH]; [done|].
  change (String c s +:+ "") with (String c (s +:+ "")). by f_equal.
Qed.

Lemma string_app_assoc (s1 s2 s3 : string) :
  (s1 +:+ s2) +:+ s3 = s1 +:+ s2 +:+ s3.
Proof.
  induction s1 as [|c s1 IH]; [done|].
  change ((String c s1 +:+ s2) +:+ s3) with (String c ((s1 +:+ s2) +:+ s3)).
  change (String c s1 +:+ s2 +:+ s3) with (String c (s1 +:+ s2 +:+ s3)).
  by f_equal.
Qed.




(** X11. The expression [deserializerFn] returns asks for parentheses exactly
    when it is a lambda, that is for [any], an array, a map or a union; a
    combinator name and the name of a class or an enum do not.  The call
    [deserializer] builds applies the expression, in parentheses if it asks
    for them, to the value. *)
Theorem deserializer_call_parentheses G value t st :
  match deserializerFn G t st with
  | Ok w st' =>
      needsParens w = match t with
                      | AnyType | ArrayType _ | MapType _ | UnionType _ => true
                      | _ => false
                      end
      /\ exists call,
           deserializer G value t st = Ok call st'
           /\ flatten call
              = (if needsParens w then "(" +:+ flatten (source w) +:+ ")"
                 else flatten (source w))
                  +:+ "(" +:+ flatten value +:+ ")"
  | _ => True
  end.
Proof.
  destruct (deserializerFn G t st) as [w st'| |] eqn:Hrun; [|done..].
  split.
  - destruct t; simpl in Hrun.
    all: try (by injection Hrun as <- _).
    + apply bind_Ok in Hrun as (? & ? & _ & (? & ? & _ & [= <- _])%bind_Ok).
      done.
    + apply bind_Ok in Hrun as (? & ? & _ & (? & ? & _ & [= <- _])%bind_Ok).
      done.
    + apply bind_Ok in Hrun as (? & ? & _ & (? & ? & _ & [= <- _])%bind_Ok).
      done.
    + destruct (String.eqb kind "date-time"); [|done].
      by injection Hrun as <- _.
  - unfold deserializer, bind. rewrite Hrun. eexists. split; [done|].
    unfold parenIfNeeded. simpl. rewrite string_app_nil_r.
    destruct (needsParens w); simpl; [|done].
    by rewrite !string_app_assoc.
Qed.

(** ** The lines of declarations *)

(** X14. An enum is emitted as its description, the line
    [class Name(Enum):] and, one level deeper, one line per case, in
    order, that assigns the escaped original literal to the case's name.
    [Enum] is imported from enum and the enum is declared.  An enum
    without cases gets the class line alone: unlike a class without
    properties, no [pass] stands for the empty body. *)
Theorem emitEnum_lines G c st :
  emitEnum G c st =
  Ok tt
     {| imports := importInto "enum" "Enum" (imports st);
        declaredTypes := {[c]} ∪ declaredTypes st;
        deserializerFunctions := deserializerFunctions st;
        emitted :=
          emitted st
          ++ descriptionLines (indentation st)
               (descriptionForType G (EnumType c))
          ++ SourceLine (indentation st)
               [SArray [SString "class "; SName (nameForNamedType G c);
                        SString "("; SString "Enum"; SString "):"]]
          :: map (enumCaseLine G (S (indentation st))) (enumCases G c);
        indentation := indentation st |}.
Proof.
  unfold emitEnum, declareType, bind. rewrite emitDescription_run. simpl.
  unfold emitBlock, bind, emitLine, indent. simpl.
  assert (forall l s,
            forEach (fun '(name, jsonName) =>
                       emitLine [SArray [SName name; SString (" = " +:+ dq);
                                         SString (stringEscape G jsonName);
                                         SString dq]]) l s
            = Ok tt (setEmitted
                       (emitted s ++ map (enumCaseLine G (indentation s)) l) s))
    as Hcases.
  { induction l as [|[name jsonName] l IH]; intros s; simpl.
    - by rewrite app_nil_r, setEmitted_id.
    - unfold bind, emitLine. rewrite IH. simpl. by rewrite <- app_assoc. }
  rewrite Hcases. simpl. f_equal. f_equal.
  rewrite <- !app_assoc. done.
Qed.

(** X15. A class without properties is emitted as its description, the
    line [class Name:] and, one level deeper, the line [pass]; the members
    after the properties are not asked for, whatever the renderer, and the
    class is declared. *)
Theorem emitClass_without_properties G R c st :
  getProperties G c = [] ->
  emitClass G R c st =
  Ok tt
     {| imports := imports st;
        declaredTypes := {[c]} ∪ declaredTypes st;
        deserializerFunctions := deserializerFunctions st;
        emitted :=
          emitted st
          ++ descriptionLines (indentation st)
               (descriptionForType G (ClassType c))
          ++ [SourceLine (indentation st)
                [SArray [SString "class "; SName (nameForNamedType G c);
                         SString ":"]];
              SourceLine (S (indentation st)) [SString "pass"]];
        indentation := indentation st |}.
Proof.
  intros Hnone. unfold emitClass, declareType, bind. rewrite Hnone.
  rewrite emitDescription_run. simpl. f_equal. f_equal.
  rewrite <- !app_assoc. done.
Qed.

Lemma emitClass_without_properties_witness :
  resultLines (emitClass (sampleGraph []) (JSONPythonRenderer (sampleGraph []))
                 1%positive initialState)
  = ["class Node:"; "    pass"].
Proof.
  rewrite (emitClass_without_properties (sampleGraph [])
             (JSONPythonRenderer (sampleGraph [])) 1%positive initialState
             eq_refl).
  reflexivity.
Defined.

Lemma assignments_lines G properties : forall st st',
  forEach (fun cp =>
             let property :=
               SArray [SString ("obj[" +:+ dq);
                       SString (stringEscape G (cp_jsonName cp));
                       SString (dq +:+ "]")] in
             d <- deserializer G property (cp_type cp) ;;
             emitLine [SString "self."; SName (cp_name cp); SString " = "; d])
          properties st = Ok tt st' ->
  indentation st' = indentation st
  /\ exists ws,
       Forall2 (fun cp w => exists s s',
                  deserializerFn G (cp_type cp) s = Ok w s') properties ws
       /\ emitted st' =
          emitted st
          ++ zip_with (assignmentLine G (indentation st)) properties ws.
Proof.
  induction properties as [|cp l IH]; intros st st'; simpl.
  - intros [= <-]. split; [done|]. exists []. split; [constructor|].
    by rewrite app_nil_r.
  - intros ([] & s2 & (d & s1 & (w & s0 & Hw & [= <- <-])%bind_Ok
                       & [= <-])%bind_Ok & Hrest)%bind_Ok.
    pose proof (deserializerFn_state _ _ _ _ _ Hw) as Hs0.
    apply IH in Hrest as (Hind & ws & Hws & Hlines).
    rewrite Hs0 in Hind, Hlines. simpl in Hind, Hlines.
    split; [done|]. exists (w :: ws). split; [constructor; eauto|].
    rewrite Hlines, <- app_assoc. done.
Qed.

Lemma JSON_emitClassMembers_lines G c st st' :
  JSON_emitClassMembers G c st = Ok tt st' ->
  exists ws,
    Forall2 (fun cp w => exists s s',
               deserializerFn G (cp_type cp) s = Ok w s')
            (getProperties G c) ws
    /\ emitted st' =
       emitted st
       ++ SourceLine (indentation st) [SString "def __init__(self, obj):"]
       :: SourceLine (S (indentation st))
            [SString "assert isinstance(obj, dict)"]
       :: zip_with (assignmentLine G (S (indentation st)))
                   (getProperties G c) ws.
Proof.
  unfold JSON_emitClassMembers, emitBlock.
  intros ([] & s1 & [= <-] & Hindent)%bind_Ok.
  revert Hindent. unfold indent.
  match goal with |- context [bind ?f ?k ?s] =>
    destruct (bind f k s) as [[] s3| |] eqn:Hbody end; intros [= <-].
  apply bind_Ok in Hbody as ([] & s2 & [= <-] & Hloop).
  apply assignments_lines in Hloop as (_ & ws & Hws & Hlines).
  exists ws. split; [done|]. simpl in *. rewrite Hlines.
  by rewrite <- !app_assoc.
Qed.

(** X16. The constructor [JSONPythonRenderer] adds to a class is the line
    [def __init__(self, obj):] and, one level deeper, the assertion that
    [obj] is a dict, then one assignment per property, in the order of the
    properties: [self.<name> = <deserializer>(obj["<key>"])], with the
    deserializer expression of the property's type, in parentheses where
    it asks for them, and the escaped original key. *)
Theorem constructor_lines G c st :
  match JSON_emitClassMembers G c st with
  | Ok _ st' =>
      exists ws,
        Forall2 (fun cp w => exists s s',
                   deserializerFn G (cp_type cp) s = Ok w s')
                (getProperties G c) ws
        /\ emitted st' =
           emitted st
           ++ SourceLine (indentation st) [SString "def __init__(self, obj):"]
           :: SourceLine (S (indentation st))
                [SString "assert isinstance(obj, dict)"]
           :: zip_with (assignmentLine G (S (indentation st)))
                       (getProperties G c) ws
  | _ => True
  end.
Proof.
  destruct (JSON_emitClassMembers G c st) as [[] st'| |] eqn:Hrun; [|done..].
  by apply JSON_emitClassMembers_lines.
Qed.

(** ** PythonRenderer alone *)

(** X17. [PythonRenderer] itself generates the types only: its artifact is
    the head and the declarations, with no support code between them, and
    no combinator is ever used. *)
Theorem renderPython_types_only G st :
  renderPython G = Ok tt st ->
  deserializerFunctions st = []
  /\ exists declarationLines st1 st6,
       gatherSource
         (forEachInterposing (emitDeclaration G PythonRenderer)
                             (declarations G)) initialState
         = Ok declarationLines st1
       /\ emitHeader G st1 = Ok tt st6
       /\ emitted st1 = []
       /\ emitted st = emitted st6 ++ declarationLines.
Proof.
  unfold renderPython, emitSourceStructure.
  intros (declarationLines & st1 & Hdecl & H)%bind_Ok.
  apply bind_Ok in H as (supportLines & st2 & Hsup & H).
  assert (supportLines = [] /\ st2 = st1) as [-> ->].
  { revert Hsup. unfold gatherSource. simpl. intros [= <- <-].
    split; [done|]. by destruct st1. }
  apply bind_Ok in H as ([] & st3 & Hcomments & H).
  apply bind_Ok in H as ([] & st4 & Hblank1 & H).
  apply bind_Ok in H as ([] & st5 & Himports & H).
  apply bind_Ok in H as ([] & st6 & Hblank2 & H).
  apply bind_Ok in H as ([] & st7 & [= <-] & H).
  apply bind_Ok in H as ([] & st8 & Hblank3 & [= <-]).
  assert (emitHeader G st1 = Ok tt st6) as Hheader.
  { unfold emitHeader, bind. by rewrite Hcomments, Hblank1, Himports. }
  pose proof (runs_emitHeader G _ _ _ Hheader) as (_ & Hu6 & _ & _).
  pose proof (runs_gatherSource _ _ _
    (runs_declarations G PythonRenderer (fun _ => [])
       (fun _ => runs_ret tt) (fun _ _ => eq_refl)
       (declarations G)) _ _ _ Hdecl) as (_ & Hu1 & _ & _).
  assert (flat_map (declarationUses (fun _ => [])) (declarations G) = [])
    as Hnone.
  { apply flat_map_nil. intros decl _. unfold declarationUses.
    destruct (decl_kind decl); [done|]. by destruct (decl_type decl). }
  rewrite Hnone in Hu1. simpl in Hu1, Hu6.
  rewrite ensureBlankLine_noop in Hblank3.
  2:{ simpl. rewrite app_nil_r. by apply ensureBlankLine_last in Hblank2. }
  injection Hblank3 as <-. simpl.
  split; [by rewrite Hu6|].
  exists declarationLines, st1, st6. split_and!; [done..| |].
  - revert Hdecl. unfold gatherSource.
    by destruct (forEachInterposing _ _ _); intros [= _ <-].
  - by rewrite app_nil_r.
Qed.

Lemma renderPython_types_only_witness :
  match renderPython mutualGraph with
  | Ok _ st => deserializerFunctions st = []
  | _ => False
  end.
Proof.
  destruct (renderPython mutualGraph) as [[] st| |] eqn:Hrun;
    [|by vm_compute in Hrun..].
  by apply (renderPython_types_only mutualGraph st).
Defined.

(** ** The lines of a class *)

Lemma pythonType_frame G t st a st' :
  pythonType G t st = Ok a st' ->
  declaredTypes st' = declaredTypes st
  /\ emitted st' = emitted st /\ indentation st' = indentation st.
Proof.
  intros Hrun.
  eapply (pythonType_preserves G
            (fun s => declaredTypes s = declaredTypes st
                      /\ emitted s = emitted st
                      /\ indentation s = indentation st) t);
    [|by split_and!|exact Hrun].
  by intros module name s.
Qed.

Lemma properties_lines G c properties : forall st st',
  forEach (fun cp =>
             emitDescription
               (descriptionForClassProperty G c (cp_jsonName cp)) ;;
             annotation <- pythonType G (cp_type cp) ;;
             emitLine [SName (cp_name cp); SString ": "; annotation])
          properties st = Ok tt st' ->
  indentation st' = indentation st
  /\ declaredTypes st' = declaredTypes st
  /\ (properties <> [] ->
      exists n lineParts, last (emitted st') = Some (SourceLine n lineParts))
  /\ exists annotations,
       Forall2 (fun cp a => exists s s',
                  pythonType G (cp_type cp) s = Ok a s'
                  /\ declaredTypes s = declaredTypes st) properties annotations
       /\ emitted st' =
          emitted st
          ++ concat (zip_with (propertyLines G c (indentation st))
                              properties annotations).
Proof.
  induction properties as [|cp l IH]; intros st st'; simpl.
  - intros [= <-]. split_and!; [done..|]. exists [].
    split; [constructor|]. by rewrite app_nil_r.
  - intros ([] & s3 & Hcp & Hrest)%bind_Ok.
    apply bind_Ok in Hcp as ([] & s1 & Hdesc & Hcp).
    rewrite emitDescription_run in Hdesc. injection Hdesc as <-.
    apply bind_Ok in Hcp as (a & s2 & Hann & [= <-]).
    pose proof (pythonType_frame _ _ _ _ _ Hann) as (Hd2 & He2 & Hi2).
    simpl in Hd2, He2, Hi2.
    apply IH in Hrest as (Hind & Hdecl & Hlast & annotations & Hanns & Hlines).
    simpl in Hind, Hdecl, Hlines.
    split_and!; [congruence..| |].
    + intros _. destruct l as [|cp' l'].
      * destruct annotations; [|by inversion Hanns].
        simpl in Hlines. rewrite app_nil_r in Hlines.
        rewrite Hlines, last_snoc. eauto.
      * by apply Hlast.
    + exists (a :: annotations). split.
      * constructor; [by eexists _, _|].
        eapply Forall2_impl; [exact Hanns|]. simpl.
        intros cp' a' (s & s' & Hs & Hds). exists s, s'.
        split; [done|]. congruence.
      * rewrite Hlines, He2, Hi2. simpl. unfold propertyLines.
        by rewrite <- !app_assoc.
Qed.

(** X18. A class with properties, emitted by [JSONPythonRenderer], is its
    description, the line [class Name:], then one level deeper: for each
    property, in order, its description and the line [name: annotation],
    with the annotation rendered while the class is not yet declared; one
    blank line; the constructor with one assignment per property.  The
    class is declared once all of this is emitted. *)
Theorem emitClass_lines G c st :
  getProperties G c <> [] ->
  match emitClass G (JSONPythonRenderer G) c st with
  | Ok _ st' =>
      declaredTypes st' = {[c]} ∪ declaredTypes st
      /\ exists annotations ws,
           Forall2 (fun cp a => exists s s',
                      pythonType G (cp_type cp) s = Ok a s'
                      /\ declaredTypes s = declaredTypes st)
                   (getProperties G c) annotations
           /\ Forall2 (fun cp w => exists s s',
                         deserializerFn G (cp_type cp) s = Ok w s')
                      (getProperties G c) ws
           /\ emitted st' =
              emitted st
              ++ descriptionLines (indentation st)
                   (descriptionForType G (ClassType c))
              ++ [SourceLine (indentation st)
                    [SArray [SString "class "; SName (nameForNamedType G c);
                             SString ":"]]]
              ++ concat (zip_with (propertyLines G c (S (indentation st)))
                                  (getProperties G c) annotations)
              ++ [BlankLine;
                  SourceLine (S (indentation st))
                    [SString "def __init__(self, obj):"];
                  SourceLine (S (S (indentation st)))
                    [SString "assert isinstance(obj, dict)"]]
              ++ zip_with (assignmentLine G (S (S (indentation st))))
                          (getProperties G c) ws
  | _ => True
  end.
Proof.
  intros Hsome.
  destruct (emitClass G (JSONPythonRenderer G) c st) as [[] st'| |] eqn:Hrun;
    [|done..].
  split.
  { pose proof (runs_emitClass G (JSONPythonRenderer G) (classCombinators G)
                  (runs_JSON_emitClassMembers G) (classCombinators_none G)
                  c _ _ _ Hrun) as (Hd & _). exact Hd. }
  revert Hrun. unfold emitClass, declareType.
  intros ([] & s1 & Hdesc & Hrun)%bind_Ok.
  rewrite emitDescription_run in Hdesc. injection Hdesc as <-.
  apply bind_Ok in Hrun as (line & s2 & [= <- <-] & Hrun).
  apply bind_Ok in Hrun as ([] & s3 & Hblock & Hdeclare).
  assert (emitted st' = emitted s3) as ->
    by (by injection Hdeclare as <-).
  clear Hdeclare. revert Hblock. unfold emitBlock.
  intros ([] & s4 & [= <-] & Hindent)%bind_Ok.
  revert Hindent. unfold indent.
  destruct (getProperties G c) as [|cp0 l] eqn:Hprops; [done|].
  match goal with |- context [bind ?f ?k ?s] =>
    destruct (bind f k s) as [[] s5| |] eqn:Hbody end; intros [= <-].
  apply bind_Ok in Hbody as ([] & s6 & Hloop & Hrest).
  apply properties_lines in Hloop
    as (Hind & Hdecl & Hlast & annotations & Hanns & Hlines).
  destruct (Hlast ltac:(done)) as (n & lineParts & Hlast').
  apply bind_Ok in Hrest as ([] & s7 & Hblank & Hmembers).
  revert Hblank. unfold ensureBlankLine. rewrite Hlast'. intros [= <-].
  pose proof (JSON_emitClassMembers_lines G c) as Hctor.
  specialize (Hctor _ _ Hmembers). destruct Hctor as (ws & Hws & Hctor).
  rewrite Hprops in Hws, Hctor.
  exists annotations, ws. split_and!; [done..|].
  simpl in *. rewrite Hctor, Hlines, Hind. simpl.
  by rewrite <- !app_assoc.
Qed.

Lemma emitClass_lines_witness :
  match emitClass (sampleGraph [property "x" IntegerType])
          (JSONPythonRenderer (sampleGraph [property "x" IntegerType]))
          1%positive initialState with
  | Ok _ st' => declaredTypes st' = {[1%positive]} ∪ declaredTypes initialState
  | _ => False
  end.
Proof.
  pose proof (emitClass_lines (sampleGraph [property "x" IntegerType])
                1%positive initialState ltac:(done)) as Hlines.
  destruct (emitClass _ _ _ _) as [[] st'| |] eqn:Hrun;
    [|by vm_compute in Hrun..].
  by destruct Hlines as [Hdeclared _].
Defined.
